(** * lab-graphs-1: a binary tree over an arena of nodes

    Shallow embedding of [btree.hpp] (class [BinaryLeaf<T>]) and of
    [GenerateTree] / the statistic search of [main.cpp].

    Memory model.  Every [new BinaryLeaf<T>(..)] appends a cell to an arena
    (a list of node records); a [BinaryLeaf<T>*] is the index of a cell and
    [nullptr] is [None].  A [BinaryLeaf<T>**] (the [output] field of
    [leaf_generation_data_t]) is a [slot]: the caller's pointer variable or
    one of the two child fields of a cell.

    Numbers.  [uint16_t] is a [Z] reduced modulo 2^16, [int] is a [Z] reduced
    to the signed 32-bit range (signed overflow, undefined in C++, wraps
    around).  A finite [double] is the rational it denotes: the conversion of
    an [int] to [double] is exact, comparisons are those of the rationals,
    and the division of [GetWeightSumChildrenRatio] rounds its quotient to
    the nearest double ([round_double]).

    Loops.  [while] loops are recursive functions with a fuel argument;
    [None] means that no result was produced (fuel exhausted, a wild pointer
    was read, or a callback threw). *)

From Stdlib Require Import ZArith QArith Qround Qabs Qpower String Ascii.
From Stdlib Require Import Lia Lqa.
From Stdlib Require Import DecimalString DecimalZ.
From stdpp Require Import base option list.

Set Default Proof Using "Type".

(** ** Machine integers *)

Definition uint16_t (z : Z) : Z := (z mod 65536)%Z.

Definition int (z : Z) : Z := ((z + 2147483648) mod 4294967296 - 2147483648)%Z.

Definition INT_MAX : Z := 2147483647%Z.
Definition INT_MIN : Z := (-2147483648)%Z.

(** ** Data model *)

(** A [BinaryLeaf<T>*]: the index of a cell of the arena. *)
Abbreviation ptr := nat.

Definition treedir_t := Z.

Module TreeDirection.
Definition ROOT : treedir_t := 0%Z.
Definition LEFT : treedir_t := 1%Z.
Definition RIGHT : treedir_t := 2%Z.
End TreeDirection.

Record BinaryLeaf (T : Type) := mkLeaf {
  mValue : T;
  mDepth : Z;
  mDirection : treedir_t;
  mRight : option ptr;
  mLeft : option ptr
}.
Arguments mkLeaf {T} _ _ _ _ _.
Arguments mValue {T} _.
Arguments mDepth {T} _.
Arguments mDirection {T} _.
Arguments mRight {T} _.
Arguments mLeft {T} _.

(** [BinaryLeaf(T value)] *)
Definition BinaryLeaf_new {T} (value : T) : BinaryLeaf T :=
  mkLeaf value 0%Z TreeDirection.ROOT None None.

Definition set_mRight {T} (c : option ptr) (n : BinaryLeaf T) : BinaryLeaf T :=
  mkLeaf (mValue n) (mDepth n) (mDirection n) c (mLeft n).

Definition set_mLeft {T} (c : option ptr) (n : BinaryLeaf T) : BinaryLeaf T :=
  mkLeaf (mValue n) (mDepth n) (mDirection n) (mRight n) c.

(** [child->mDepth = depth; child->mDirection = dir] *)
Definition set_placement {T} (depth : Z) (dir : treedir_t) (n : BinaryLeaf T)
  : BinaryLeaf T :=
  mkLeaf (mValue n) depth dir (mRight n) (mLeft n).

(** [SetLeftChild]: the field is written first, then the depth and the
    direction of the child, through the field just written. *)
Definition SetLeftChild {T} (this leaf : ptr) (h : list (BinaryLeaf T))
  : list (BinaryLeaf T) :=
  let h1 := alter (set_mLeft (Some leaf)) this h in
  match h1 !! this with
  | Some t =>
      alter (set_placement (uint16_t (mDepth t + 1)) TreeDirection.LEFT) leaf h1
  | None => h1
  end.

Definition SetRightChild {T} (this leaf : ptr) (h : list (BinaryLeaf T))
  : list (BinaryLeaf T) :=
  let h1 := alter (set_mRight (Some leaf)) this h in
  match h1 !! this with
  | Some t =>
      alter (set_placement (uint16_t (mDepth t + 1)) TreeDirection.RIGHT) leaf h1
  | None => h1
  end.

(** ** Traversal engine: [BinaryLeaf::Walk]

    The walker receives the dequeued leaf and the ambient state [St]; it
    answers [Some (shouldStop, state')], or [None] when it does not return.
    [heap_of] is the arena as the ambient state currently holds it: the
    children of a leaf are read when the leaf is dequeued, before the walker
    runs. *)

Section Walk.
Context {T St : Type}.
Variable heap_of : St -> list (BinaryLeaf T).

Definition walk_callback_t := ptr -> St -> option (bool * St).

(** [if (c != nullptr) collected.push(c);] *)
Definition push_child (c : option ptr) (collected : list ptr) : list ptr :=
  match c with
  | Some p => collected ++ [p]
  | None => collected
  end.

Fixpoint Walk_loop (fuel : nat) (walker : walk_callback_t)
    (collected : list ptr) (s : St) : option St :=
  match collected with
  | [] => Some s
  | leaf :: rest =>
      match fuel with
      | O => None
      | S fuel' =>
          match heap_of s !! leaf with
          | None => None
          | Some l =>
              let collected' :=
                push_child (mLeft l) (push_child (mRight l) rest) in
              match walker leaf s with
              | None => None
              | Some (true, s') => Some s'
              | Some (false, s') => Walk_loop fuel' walker collected' s'
              end
          end
      end
  end.

Definition Walk (fuel : nat) (walker : walk_callback_t) (includeSelf : bool)
    (this : ptr) (s : St) : option St :=
  if includeSelf then Walk_loop fuel walker [this] s
  else
    match heap_of s !! this with
    | None => None
    | Some t =>
        Walk_loop fuel walker
          (push_child (mRight t) (push_child (mLeft t) [])) s
    end.
End Walk.

(** A walk over an arena that the walker does not change: the arena is a
    constant and the state is the walker's accumulator.  A tree stored in
    [h] has at most [length h] nodes, which bounds the number of turns of
    the loop. *)
Definition Walk_const {T A} (h : list (BinaryLeaf T))
    (walker : ptr -> A -> option (bool * A)) (includeSelf : bool)
    (this : ptr) (a : A) : option A :=
  Walk (fun _ : A => h) (length h) walker includeSelf this a.

(** The order in which a walk that is never stopped hands the leaves to
    its walker. *)
Definition collect : ptr -> list ptr -> option (bool * list ptr) :=
  fun leaf seen => Some (false, seen ++ [leaf]).

Definition visit_order {T} (h : list (BinaryLeaf T)) (includeSelf : bool)
    (this : ptr) : option (list ptr) :=
  Walk_const h collect includeSelf this [].

(** ** Text of values

    [stream << n] for an integer writes its decimal digits, with a leading
    minus sign when negative; [std::stoi] skips leading white space, reads an
    optional sign and the longest run of digits, and throws when there is no
    digit or when the number does not fit an [int]. *)

Definition show_int (z : Z) : string := NilZero.string_of_int (Z.to_int z).

Definition is_space (c : ascii) : bool :=
  let n := nat_of_ascii c in
  (n =? 32) || ((9 <=? n) && (n <=? 13)).

Definition digit_of (c : ascii) : option Z :=
  let n := nat_of_ascii c in
  if (48 <=? n) && (n <=? 57) then Some (Z.of_nat (n - 48)) else None.

Fixpoint skip_spaces (s : string) : string :=
  match s with
  | String c s' => if is_space c then skip_spaces s' else s
  | EmptyString => s
  end.

(** The digits at the head of [s], most significant first, folded into
    [acc]; [seen] tells whether a digit was read. *)
Fixpoint read_digits (s : string) (seen : bool) (acc : Z) : option Z :=
  match s with
  | String c s' =>
      match digit_of c with
      | Some d => read_digits s' true (acc * 10 + d)%Z
      | None => if seen then Some acc else None
      end
  | EmptyString => if seen then Some acc else None
  end.

Definition stoi (s : string) : option Z :=
  let s := skip_spaces s in
  let '(negative, s) :=
    match s with
    | String "-"%char s' => (true, s')
    | String "+"%char s' => (false, s')
    | _ => (false, s)
    end in
  match read_digits s false 0%Z with
  | Some n =>
      let v := if negative then (- n)%Z else n in
      if (INT_MIN <=? v)%Z && (v <=? INT_MAX)%Z then Some v else None
  | None => None
  end.

(** ** Serializer: [BinaryLeaf::Serialize]

    The output stream is the list of the lines written so far (every line
    is ended by [std::endl]).  [skipDeep] is a [uint16_t] parameter, so the
    default argument [-1] arrives as 65535; the comparison [skipDeep != -1]
    is made on [int] after promotion. *)

Definition tab : ascii := ascii_of_nat 9.

Fixpoint tabs (n : nat) : string :=
  match n with
  | O => EmptyString
  | S n' => String tab (tabs n')
  end.

Definition pretty_prefix {T} (l : BinaryLeaf T) : string :=
  let tabDepth := if (mDepth l <? 32)%Z then mDepth l else 32%Z in
  let tabDepth :=
    if (mDirection l =? TreeDirection.LEFT)%Z then uint16_t (tabDepth - 1)
    else tabDepth in
  (tabs (Z.to_nat tabDepth) ++ show_int (mDepth l) ++ ": ")%string.

Definition leaf_line {T} (show : T -> string) (pretty : bool)
    (l : BinaryLeaf T) : string :=
  ((if pretty then pretty_prefix l else EmptyString) ++ show (mValue l))%string.

Definition truncation_marker : string := "...".

Definition Serialize_walker {T} (show : T -> string)
    (h : list (BinaryLeaf T)) (skipDeep : Z) (pretty : bool)
    : ptr -> list string -> option (bool * list string) :=
  fun leaf stream =>
    match h !! leaf with
    | None => None
    | Some l =>
        let stream := stream ++ [leaf_line show pretty l] in
        if negb (skipDeep =? -1)%Z && (skipDeep <? mDepth l)%Z
        then Some (true, stream ++ [truncation_marker])
        else Some (false, stream)
    end.

Definition Serialize {T} (show : T -> string) (h : list (BinaryLeaf T))
    (this : ptr) (skipDeep : Z) (pretty : bool) : option (list string) :=
  let skipDeep := uint16_t skipDeep in
  Walk_const h (Serialize_walker show h skipDeep pretty) true this [].

(** ** Pending slots: [leaf_generation_data_t] *)

Inductive slot :=
| CallerVar
| RightField (p : ptr)
| LeftField (p : ptr).

Record leaf_generation_data_t := mkGen {
  output : slot;
  parent : option ptr;
  direction : treedir_t
}.

(** The arena together with the caller's pointer variable ([tree] in
    [main], [result] in [GenerateTree]). *)
Record store (T : Type) := mkStore {
  cells : list (BinaryLeaf T);
  caller_var : option ptr
}.
Arguments mkStore {T} _ _.
Arguments cells {T} _.
Arguments caller_var {T} _.

(** Assignment of [p] through the slot [o]. *)
Definition write_slot {T} (o : slot) (p : ptr) (st : store T) : store T :=
  match o with
  | CallerVar => mkStore (cells st) (Some p)
  | RightField q =>
      mkStore (alter (set_mRight (Some p)) q (cells st)) (caller_var st)
  | LeftField q =>
      mkStore (alter (set_mLeft (Some p)) q (cells st)) (caller_var st)
  end.

(** The block shared by [Deserialize] (btree.hpp 396-409) and
    [GenerateTree] (main.cpp 32-45): allocate the leaf, store its address
    through [output], and let the parent adopt it.  The result is the new
    leaf's address, which is what [*leafData.output] then holds. *)
Definition populate {T} (leafData : leaf_generation_data_t) (value : T)
    (st : store T) : ptr * store T :=
  let p := length (cells st) in
  let st := mkStore (cells st ++ [BinaryLeaf_new value]) (caller_var st) in
  let st := write_slot (output leafData) p st in
  let h :=
    match parent leafData with
    | Some par =>
        if (direction leafData =? TreeDirection.LEFT)%Z
        then SetLeftChild par p (cells st)
        else if (direction leafData =? TreeDirection.RIGHT)%Z
        then SetRightChild par p (cells st)
        else cells st
    | None => cells st
    end in
  (p, mkStore h (caller_var st)).

(** The two requests a new leaf adds to the queue, right slot first. *)
Definition child_requests (p : ptr) : list leaf_generation_data_t :=
  [ mkGen (RightField p) (Some p) TreeDirection.RIGHT;
    mkGen (LeftField p) (Some p) TreeDirection.LEFT ].

Definition root_request : leaf_generation_data_t :=
  mkGen CallerVar None TreeDirection.ROOT.

(** ** Deserializer: [BinaryLeaf::Deserialize]

    The input stream is the list of the lines not yet read.  When it is
    empty the next [getline] reads nothing and clears [good()], which ends
    the loop; a blank line is skipped without touching the queue.  The value
    parser answers [None] when it throws. *)

Definition deserializer_t (T : Type) := string -> option T.

Fixpoint Deserialize_loop {T} (valueDeserializer : deserializer_t T)
    (stream : list string) (toPopulate : list leaf_generation_data_t)
    (st : store T) : option (store T) :=
  match stream with
  | [] => Some st
  | curline :: stream' =>
      match toPopulate with
      | [] => Some st
      | leafData :: rest =>
          if (String.length curline <=? 0)%nat
          then Deserialize_loop valueDeserializer stream' toPopulate st
          else
            match valueDeserializer curline with
            | None => None
            | Some value =>
                let '(p, st') := populate leafData value st in
                Deserialize_loop valueDeserializer stream'
                  (rest ++ child_requests p) st'
            end
      end
  end.

Definition Deserialize {T} (valueDeserializer : deserializer_t T)
    (stream : list string) (st : store T) : option (store T) :=
  Deserialize_loop valueDeserializer stream [root_request] st.

(** ** Streams as text

    What the lines of an output stream leave in a file, and what the
    [std::getline] calls of [Deserialize] read from a file.  [std::endl]
    writes one new-line character after each line.  [std::getline] reads up
    to the next new-line character, which it drops; at the end of the text it
    reads what is left, possibly nothing, and clears [good()].  A line that
    holds a new-line character is therefore read back as two lines. *)

Definition newline : ascii := ascii_of_nat 10.

Fixpoint written (lines : list string) : string :=
  match lines with
  | [] => EmptyString
  | line :: lines' => (line ++ String newline (written lines'))%string
  end.

Fixpoint getlines (text : string) : list string :=
  match text with
  | EmptyString => [EmptyString]
  | String c text' =>
      if Ascii.eqb c newline then EmptyString :: getlines text'
      else
        match getlines text' with
        | curline :: lines => String c curline :: lines
        | [] => [String c EmptyString]
        end
  end.

(** ** Generator: [GenerateTree] of main.cpp

    [rand k] is what the [k]-th call of [rand()] returns; the number of
    calls made so far is threaded through the loop.  [leavesGenerated] never
    exceeds [max 1 maxLeaves], so its increment cannot overflow. *)

Section Generator.
Variable rand : nat -> Z.

Fixpoint GenerateTree_loop (fuel : nat) (maxLeaves : Z)
    (toGenerate : list leaf_generation_data_t) (leavesGenerated : Z)
    (calls : nat) (st : store Z) : option (store Z * nat) :=
  match toGenerate with
  | [] => Some (st, calls)
  | leafData :: rest =>
      match fuel with
      | O => None
      | S fuel' =>
          let leafValue := Z.rem (rand calls) 255 in
          let calls := S calls in
          let '(p, st') := populate leafData leafValue st in
          let leavesGenerated := (leavesGenerated + 1)%Z in
          if (leavesGenerated >=? maxLeaves)%Z then Some (st', calls)
          else
            GenerateTree_loop fuel' maxLeaves (rest ++ child_requests p)
              leavesGenerated calls st'
      end
  end.

(** [h0] is the arena before the call; [result] starts as [nullptr]. *)
Definition GenerateTree (h0 : list (BinaryLeaf Z)) (maxLeaves : Z)
    : option (store Z * nat) :=
  GenerateTree_loop (Z.to_nat (Z.max 1 maxLeaves)) maxLeaves
    [root_request] 0%Z O (mkStore h0 None).
End Generator.

(** ** Arithmetic of [double]

    IEEE 754 binary64 in the default rounding mode: the result of a division
    is the double nearest to the exact quotient, and of two nearest doubles
    the one whose significand is even.  A double has 53 significant bits, so
    around a number [q] with 2^e <= |q| < 2^(e+1) the doubles are the
    multiples of 2^(e-52) (of 2^-1074 below the normal range).  The quotient
    of two [int]s, the divisor at least 1, is 0 or lies between 2^-31 and
    2^31 in absolute value: no infinity, no NaN, no negative zero. *)

(** floor (log2 |q|), for [q] other than 0. *)
Definition binade (q : Q) : Z :=
  let k := (Z.log2 (Z.abs (Qnum q)) - Z.log2 (Zpos (Qden q)))%Z in
  if Qle_bool (2 ^ k) (Qabs q) then k else (k - 1)%Z.

(** The integer nearest to [q], the even one of two nearest. *)
Definition round_half_even (q : Q) : Z :=
  let f := Qfloor q in
  match Qcompare (q - inject_Z f) (1 # 2) with
  | Lt => f
  | Gt => (f + 1)%Z
  | Eq => if Z.even f then f else (f + 1)%Z
  end.

Definition round_double (q : Q) : Q :=
  if Qeq_bool q 0 then 0
  else
    let ulp := (2 ^ Z.max (binade q - 52) (-1074))%Q in
    Qred (inject_Z (round_half_even (q / ulp)) * ulp).

(** [static_cast<double>(z)], exact for every [int]. *)
Definition double_of_int (z : Z) : Q := inject_Z z.

(** [x / y] on doubles, [y] other than 0. *)
Definition double_div (x y : Q) : Q := round_double (x / y).

(** ** Statistic engine (instantiated at [T = int], as in [main]) *)

Definition weight (l : BinaryLeaf Z) : Z := int (mDepth l * mValue l).

Definition ratio_walker (h : list (BinaryLeaf Z))
    : ptr -> Z * Z -> option (bool * (Z * Z)) :=
  fun leaf '(children, weightSum) =>
    match h !! leaf with
    | None => None
    | Some l => Some (false, (int (children + 1), int (weightSum + weight l)))
    end.

Definition GetWeightSumChildrenRatio (h : list (BinaryLeaf Z)) (this : ptr)
    : option Q :=
  match h !! this with
  | None => None
  | Some t =>
      match Walk_const h (ratio_walker h) false this (0%Z, weight t) with
      | None => None
      | Some (children, weightSum) =>
          let children := Z.max 1 children in
          Some (double_div (double_of_int weightSum) (double_of_int children))
      end
  end.

(** [outputMin], [outputMinHolder], [outputMax], [outputMaxHolder] *)
Record minmax := mkMinMax {
  outputMin : Q;
  outputMinHolder : option ptr;
  outputMax : Q;
  outputMaxHolder : option ptr
}.

Definition Qlt_b (x y : Q) : bool :=
  match (x ?= y)%Q with Lt => true | _ => false end.

Definition minmax_walker (h : list (BinaryLeaf Z))
    : ptr -> minmax -> option (bool * minmax) :=
  fun leaf acc =>
    match GetWeightSumChildrenRatio h leaf with
    | None => None
    | Some ratio =>
        let acc :=
          if Qlt_b ratio (outputMin acc)
          then mkMinMax ratio (Some leaf) (outputMax acc) (outputMaxHolder acc)
          else acc in
        let acc :=
          if Qlt_b (outputMax acc) ratio
          then mkMinMax (outputMin acc) (outputMinHolder acc) ratio (Some leaf)
          else acc in
        Some (false, acc)
    end.

Definition GetMinMaxWeightSumChildrenRatio (h : list (BinaryLeaf Z))
    (this : ptr) (acc : minmax) : option minmax :=
  Walk_const h (minmax_walker h) true this acc.

(** The search as [main] starts it (main.cpp 126-137). *)
Definition main_search (h : list (BinaryLeaf Z)) (tree : ptr) : option minmax :=
  GetMinMaxWeightSumChildrenRatio h tree
    (mkMinMax (99999999 # 1) None (0 # 1) None).

(** ** Destruction: [~BinaryLeaf] and [delete]

    [deleted] logs every [delete] in the order of the calls.  A deleted cell
    keeps its last contents, so that the reads the walk makes through a
    dangling pointer are visible in the model instead of ending it. *)

Record memory (T : Type) := mkMemory {
  arena : list (BinaryLeaf T);
  deleted : list ptr
}.
Arguments mkMemory {T} _ _.
Arguments arena {T} _.
Arguments deleted {T} _.

(** [depth] bounds the nesting of destructor calls, [fuel] the turns of
    each walk. *)
Fixpoint destructor {T} (depth fuel : nat) (this : ptr) (m : memory T)
    : option (memory T) :=
  match depth with
  | O => None
  | S depth' =>
      Walk arena fuel
        (fun leaf m =>
           (* delete leaf; return false; *)
           match destructor depth' fuel leaf m with
           | None => None
           | Some m' => Some (false, mkMemory (arena m') (deleted m' ++ [leaf]))
           end)
        false this m
  end.

(** [delete p] *)
Definition delete {T} (depth fuel : nat) (p : ptr) (m : memory T)
    : option (memory T) :=
  match destructor depth fuel p m with
  | None => None
  | Some m' => Some (mkMemory (arena m') (deleted m' ++ [p]))
  end.

(** ** The rest of the interface of [BinaryLeaf]

    The accessors read or write the leaf at [this]; they answer [None]
    through a pointer that is not a cell. *)

(** [BinaryLeaf()]: the value is [T()], passed as [zero]. *)
Definition BinaryLeaf_default {T} (zero : T) : BinaryLeaf T :=
  mkLeaf zero 0%Z TreeDirection.ROOT None None.

Definition set_mValue {T} (value : T) (n : BinaryLeaf T) : BinaryLeaf T :=
  mkLeaf value (mDepth n) (mDirection n) (mRight n) (mLeft n).

Definition GetValue {T} (h : list (BinaryLeaf T)) (this : ptr) : option T :=
  mValue <$> h !! this.

Definition SetValue {T} (this : ptr) (value : T) (h : list (BinaryLeaf T))
  : list (BinaryLeaf T) :=
  alter (set_mValue value) this h.

Definition GetDepth {T} (h : list (BinaryLeaf T)) (this : ptr) : option Z :=
  mDepth <$> h !! this.

(** [GetLeftChild() const] and [GetRightChild() const] *)
Definition GetLeftChild {T} (h : list (BinaryLeaf T)) (this : ptr)
  : option (option ptr) :=
  mLeft <$> h !! this.

Definition GetRightChild {T} (h : list (BinaryLeaf T)) (this : ptr)
  : option (option ptr) :=
  mRight <$> h !! this.

(** [GetByteSize].  [sizeof_leaf] is [sizeof(BinaryLeaf<T>)] and [size_t] has
    [size_t_bits] bits; both depend on the platform. *)
Section ByteSize.
Variables (sizeof_leaf : Z) (size_t_bits : Z).

Definition size_t (z : Z) : Z := (z mod 2 ^ size_t_bits)%Z.

Definition GetByteSize {T} (h : list (BinaryLeaf T)) (this : ptr) : option Z :=
  Walk_const h
    (fun (leaf : ptr) (result : Z) => Some (false, size_t (result + sizeof_leaf)))
    true this 0%Z.
End ByteSize.

(** ** The two ways [main] gets its tree, and how it saves it *)

(** main.cpp 84-88: [tree = new BinaryTree<int>()], then
    [Deserialize(input, &tree, stoi)]. *)
Definition main_load (stream : list string) : option (store Z) :=
  Deserialize stoi stream (mkStore [BinaryLeaf_default 0%Z] (Some 0)).

(** main.cpp 153: [tree->Serialize(output)], with the default arguments. *)
Definition main_save (st : store Z) : option (list string) :=
  match caller_var st with
  | Some tree => Serialize show_int (cells st) tree (-1) false
  | None => None
  end.

(** * Vocabulary of the properties *)

(** ** Iterating a walker over a known order *)

Fixpoint run_walker {A} (walker : ptr -> A -> option (bool * A))
    (order : list ptr) (a : A) : option A :=
  match order with
  | [] => Some a
  | leaf :: rest =>
      match walker leaf a with
      | None => None
      | Some (true, a') => Some a'
      | Some (false, a') => run_walker walker rest a'
      end
  end.

(** ** What the pending-slot queue builds, in closed form

    After [m] leaves have been placed on top of an arena of [b] cells, leaf
    number [i] (the cell [b + i]) is the right child of leaf [(i-1)/2] when
    [i] is odd and its left child when [i] is even; the requests still
    queued are those of the slots [m-1 .. 2m-1] of the sequence
    right(0), left(0), right(1), left(1), ... *)

Definition child_ptr (b m j : nat) : option ptr :=
  if decide (j < m) then Some (b + j) else None.

Definition placed_direction (i : nat) : treedir_t :=
  match i with
  | O => TreeDirection.ROOT
  | S _ => if Nat.odd i then TreeDirection.RIGHT else TreeDirection.LEFT
  end.

Definition placed_depth (i : nat) : Z := uint16_t (Z.log2 (Z.of_nat i + 1)).

Definition placed {T} (b m i : nat) (v : T) : BinaryLeaf T :=
  mkLeaf v (placed_depth i) (placed_direction i)
    (child_ptr b m (2 * i + 1)) (child_ptr b m (2 * i + 2)).

Definition filled {T} (b : nat) (vs : list T) : list (BinaryLeaf T) :=
  imap (placed b (length vs)) vs.

Definition built {T} (h0 : list (BinaryLeaf T)) (out0 : option ptr)
    (vs : list T) : store T :=
  mkStore (h0 ++ filled (length h0) vs)
    (match vs with [] => out0 | _ :: _ => Some (length h0) end).

Definition request (b j : nat) : leaf_generation_data_t :=
  if Nat.even j
  then mkGen (RightField (b + Nat.div2 j)) (Some (b + Nat.div2 j))
         TreeDirection.RIGHT
  else mkGen (LeftField (b + Nat.div2 j)) (Some (b + Nat.div2 j))
         TreeDirection.LEFT.

Definition pending (b m : nat) : list leaf_generation_data_t :=
  match m with
  | O => [root_request]
  | S m' => map (request b) (seq m' (S (S m')))
  end.

Definition front_request (b m : nat) : leaf_generation_data_t :=
  match m with
  | O => root_request
  | S m' => request b m'
  end.

Definition nonblank (s : string) : bool := negb (String.length s <=? 0).

(** The values of the non-blank lines, or [None] when one of them does not
    parse. *)
Definition read_values {T} (valueDeserializer : deserializer_t T)
    (stream : list string) : option (list T) :=
  mapM valueDeserializer (List.filter nonblank stream).

(** Whether the text [s] holds a new-line character. *)
Fixpoint has_newline (s : string) : bool :=
  match s with
  | EmptyString => false
  | String c s' => Ascii.eqb c newline || has_newline s'
  end.

(** The values handed to the first [n] generated leaves. *)
Definition drawn (rand : nat -> Z) (n : nat) : list Z :=
  (fun k => Z.rem (rand k) 255) <$> seq 0 n.

(** Whether [stoi] reads the decimal text of [v] back as [v], from a
    non-empty line. *)
Definition reads_back (v : Z) : bool :=
  match stoi (show_int v) with
  | Some w => (w =? v)%Z && negb (String.eqb (show_int v) EmptyString)
  | None => false
  end.

(** ** Lines of the serializer *)

(** The line written for the leaf at [p]. *)
Definition line_of {T} (show : T -> string) (h : list (BinaryLeaf T))
    (pretty : bool) (p : ptr) : string :=
  match h !! p with
  | Some l => leaf_line show pretty l
  | None => EmptyString
  end.

(** The test that ends the walk, on the converted [skipDeep]. *)
Definition too_deep {T} (skipDeep : Z) (l : BinaryLeaf T) : bool :=
  negb (skipDeep =? -1)%Z && (skipDeep <? mDepth l)%Z.

Definition passes {T} (h : list (BinaryLeaf T)) (skipDeep : Z) (p : ptr)
    : Prop :=
  exists l, h !! p = Some l /\ too_deep skipDeep l = false.

(** [mDepth] is a [uint16_t] field. *)
Definition depths_fit {T} (h : list (BinaryLeaf T)) : Prop :=
  Forall (fun l => (0 <= mDepth l < 65536)%Z) h.

(** ** Trees in the arena

    The shape of what hangs below a pointer, as a tree of cell addresses.
    [repr h t] says that the cells of [h] link up as [t] does. *)

Inductive tree :=
| Nil
| Node (p : ptr) (r l : tree).

Definition root_of (t : tree) : option ptr :=
  match t with
  | Nil => None
  | Node p _ _ => Some p
  end.

Fixpoint nodes (t : tree) : list ptr :=
  match t with
  | Nil => []
  | Node p r l => p :: nodes r ++ nodes l
  end.

Fixpoint repr {T} (h : list (BinaryLeaf T)) (t : tree) : Prop :=
  match t with
  | Nil => True
  | Node p r l =>
      exists n, h !! p = Some n /\ mRight n = root_of r /\ mLeft n = root_of l
                /\ repr h r /\ repr h l
  end.

(** The proper descendants of the root of [t]. *)
Definition descendants (t : tree) : list ptr :=
  match t with
  | Nil => []
  | Node _ r l => nodes r ++ nodes l
  end.

(** ** Exact weights *)

(** The weight [depth * value] of the leaf at [q], as an integer. *)
Definition exact_weight (h : list (BinaryLeaf Z)) (q : ptr) : Z :=
  match h !! q with
  | Some l => (mDepth l * mValue l)%Z
  | None => 0%Z
  end.

Definition weight_sum (h : list (BinaryLeaf Z)) (ps : list ptr) : Z :=
  foldr (fun q acc => (exact_weight h q + acc)%Z) 0%Z ps.

(** Whether [z] is a value of [int]. *)
Definition fits_int (z : Z) : bool := (INT_MIN <=? z)%Z && (z <=? INT_MAX)%Z.

(** Whether the weights of the leaves of [order] can be added to [acc], one
    after the other, without leaving [int]: every product depth * value and
    every running sum is a value of [int]. *)
Fixpoint sum_fits (h : list (BinaryLeaf Z)) (acc : Z) (order : list ptr)
    : bool :=
  match order with
  | [] => true
  | q :: rest =>
      let w := exact_weight h q in
      fits_int w && fits_int (acc + w) && sum_fits h (acc + w)%Z rest
  end.

(** ** Fixtures *)

(** The tree that [Deserialize] builds from the lines 5, 3, 8. *)
Definition tree_5_3_8 : list (BinaryLeaf Z) :=
  [ mkLeaf 5%Z 0%Z TreeDirection.ROOT (Some 1) (Some 2);
    mkLeaf 3%Z 1%Z TreeDirection.RIGHT None None;
    mkLeaf 8%Z 1%Z TreeDirection.LEFT None None ].

(** A root whose only child is a left child. *)
Definition tree_left_only : list (BinaryLeaf Z) :=
  [ mkLeaf 1%Z 0%Z TreeDirection.ROOT None (Some 1);
    mkLeaf 2%Z 1%Z TreeDirection.LEFT None None ].

(** A root whose only child is a right child. *)
Definition tree_right_only : list (BinaryLeaf Z) :=
  [ mkLeaf 1%Z 0%Z TreeDirection.ROOT (Some 1) None;
    mkLeaf 2%Z 1%Z TreeDirection.RIGHT None None ].

(** The tree that [Deserialize] builds from the lines 1, 2, 3, 4: the root,
    its two children, and one grandchild below the right child. *)
Definition tree_1_2_3_4 : list (BinaryLeaf Z) :=
  [ mkLeaf 1%Z 0%Z TreeDirection.ROOT (Some 1) (Some 2);
    mkLeaf 2%Z 1%Z TreeDirection.RIGHT (Some 3) None;
    mkLeaf 3%Z 1%Z TreeDirection.LEFT None None;
    mkLeaf 4%Z 2%Z TreeDirection.RIGHT None None ].

(** The tree that [Deserialize] builds from the lines 0, 2147483647, 1: the
    weights of the two children add up to 2^31. *)
Definition tree_0_max_1 : list (BinaryLeaf Z) :=
  [ mkLeaf 0%Z 0%Z TreeDirection.ROOT (Some 1) (Some 2);
    mkLeaf 2147483647%Z 1%Z TreeDirection.RIGHT None None;
    mkLeaf 1%Z 1%Z TreeDirection.LEFT None None ].

(** The tree that [Deserialize] builds from the lines 0, 1, 0, 0: the
    weights add up to 1 and the root has three descendants. *)
Definition tree_0_1_0_0 : list (BinaryLeaf Z) :=
  [ mkLeaf 0%Z 0%Z TreeDirection.ROOT (Some 1) (Some 2);
    mkLeaf 1%Z 1%Z TreeDirection.RIGHT (Some 3) None;
    mkLeaf 0%Z 1%Z TreeDirection.LEFT None None;
    mkLeaf 0%Z 2%Z TreeDirection.RIGHT None None ].

(** ** Levels of a tree *)

(** The nodes of [t] at distance [d] from its root, right subtree first. *)
Fixpoint level (d : nat) (t : tree) : list ptr :=
  match t with
  | Nil => []
  | Node p r l =>
      match d with
      | O => [p]
      | S d' => level d' r ++ level d' l
      end
  end.

Fixpoint height (t : tree) : nat :=
  match t with
  | Nil => O
  | Node _ r l => S (Nat.max (height r) (height l))
  end.

Definition level_order (t : tree) : list ptr :=
  flat_map (fun d => level d t) (seq 0 (height t)).

(** The subtrees below the roots of a forest, in queue order. *)
Definition kids (ts : list tree) : list tree :=
  ts ≫= (fun t => match t with Nil => [] | Node _ r l => [r; l] end).

(** ** One step of the min/max search, given the ratio of the leaf *)

Definition minmax_step (acc : minmax) (leaf : ptr) (ratio : Q) : minmax :=
  let acc :=
    if Qlt_b ratio (outputMin acc)
    then mkMinMax ratio (Some leaf) (outputMax acc) (outputMaxHolder acc)
    else acc in
  if Qlt_b (outputMax acc) ratio
  then mkMinMax (outputMin acc) (outputMinHolder acc) ratio (Some leaf)
  else acc.

(** The seeds of [main]. *)
Definition main_seed : minmax := mkMinMax (99999999 # 1) None (0 # 1) None.

(** ** Watching a walker *)

(** The walker [walker], made to note every leaf it is handed. *)
Definition logged {A} (walker : ptr -> A -> option (bool * A))
    : ptr -> A * list ptr -> option (bool * (A * list ptr)) :=
  fun leaf '(a, log) =>
    match walker leaf a with
    | Some (stop, a') => Some (stop, (a', log ++ [leaf]))
    | None => None
    end.

(** The search over leaves whose ratios are known. *)
Definition search_over (prs : list (ptr * Q)) (acc : minmax) : minmax :=
  fold_left (fun acc pr => minmax_step acc (fst pr) (snd pr)) prs acc.

(** One side of the search: [better r m] tells whether the ratio [r]
    replaces the current extremum [m]. *)
Definition best_step (better : Q -> Q -> bool) (acc : Q * option ptr)
    (pr : ptr * Q) : Q * option ptr :=
  if better (snd pr) (fst acc) then (snd pr, Some (fst pr)) else acc.

(** The ratio of the leaf at [p], 0 where the code gives none. *)
Definition ratio_of (h : list (BinaryLeaf Z)) (p : ptr) : Q :=
  match GetWeightSumChildrenRatio h p with
  | Some x => x
  | None => 0 # 1
  end.

(** * Properties *)

(** ** One placement *)

Arguments populate : simpl never.

Section Populate.
Context {T : Type}.
Implicit Types (h : list (BinaryLeaf T)) (v : T).

Lemma populate_root h out v :
  populate root_request v (mkStore h out)
  = (length h, mkStore (h ++ [BinaryLeaf_new v]) (Some (length h))).
Proof. reflexivity. Qed.

Lemma alter_twice (f : BinaryLeaf T -> BinaryLeaf T) q h :
  (forall n, f (f n) = f n) -> alter f q (alter f q h) = alter f q h.
Proof.
  intros Hf. rewrite list_alter_alter_eq.
  apply list_alter_ext; [intros; simpl; apply Hf | reflexivity].
Qed.

Lemma alter_new_cell (g : BinaryLeaf T -> BinaryLeaf T) h n :
  alter g (length h) (h ++ [n]) = h ++ [g n].
Proof.
  replace (length h) with (length h + 0) by lia.
  rewrite alter_app_r. reflexivity.
Qed.

Lemma populate_right h q t v out :
  h !! q = Some t ->
  populate (mkGen (RightField q) (Some q) TreeDirection.RIGHT) v
    (mkStore h out)
  = (length h,
     mkStore
       (alter (set_mRight (Some (length h))) q h
        ++ [mkLeaf v (uint16_t (mDepth t + 1)) TreeDirection.RIGHT None None])
       out).
Proof.
  intros Hq. unfold populate, write_slot, SetRightChild. simpl.
  assert (Hlt : q < length h) by (eapply lookup_lt_Some; eauto).
  rewrite (alter_app_l _ h) by assumption.
  rewrite (alter_app_l _ (alter _ q h)) by (rewrite length_alter; lia).
  rewrite alter_twice by reflexivity.
  rewrite lookup_app_l by (rewrite length_alter; lia).
  rewrite list_lookup_alter_eq, Hq. simpl.
  rewrite <- (length_alter (set_mRight (Some (length h))) h q) at 2.
  rewrite alter_new_cell. reflexivity.
Qed.

Lemma populate_left h q t v out :
  h !! q = Some t ->
  populate (mkGen (LeftField q) (Some q) TreeDirection.LEFT) v
    (mkStore h out)
  = (length h,
     mkStore
       (alter (set_mLeft (Some (length h))) q h
        ++ [mkLeaf v (uint16_t (mDepth t + 1)) TreeDirection.LEFT None None])
       out).
Proof.
  intros Hq. unfold populate, write_slot, SetLeftChild. simpl.
  assert (Hlt : q < length h) by (eapply lookup_lt_Some; eauto).
  rewrite (alter_app_l _ h) by assumption.
  rewrite (alter_app_l _ (alter _ q h)) by (rewrite length_alter; lia).
  rewrite alter_twice by reflexivity.
  rewrite lookup_app_l by (rewrite length_alter; lia).
  rewrite list_lookup_alter_eq, Hq. simpl.
  rewrite <- (length_alter (set_mLeft (Some (length h))) h q) at 2.
  rewrite alter_new_cell. reflexivity.
Qed.
End Populate.

(** ** The queue and the arena after one more placement *)

Lemma request_even b f :
  request b (2 * f)
  = mkGen (RightField (b + f)) (Some (b + f)) TreeDirection.RIGHT.
Proof. unfold request. rewrite Nat.even_even, Nat.div2_double. reflexivity. Qed.

Lemma request_odd b f :
  request b (2 * f + 1)
  = mkGen (LeftField (b + f)) (Some (b + f)) TreeDirection.LEFT.
Proof. unfold request. rewrite Nat.even_odd, Nat.div2_odd'. reflexivity. Qed.

Lemma pending_front b m :
  pending b m = front_request b m :: tail (pending b m).
Proof. destruct m; reflexivity. Qed.

Lemma pending_S b m :
  pending b (S m) = tail (pending b m) ++ child_requests (b + m).
Proof.
  destruct m as [|m'].
  - simpl. unfold request. simpl. reflexivity.
  - unfold pending. simpl tail.
    replace (S (S (S m'))) with (S m' + 2) by lia.
    rewrite seq_app, map_app. f_equal. simpl.
    replace (S (m' + S m')) with (2 * (S m')) by lia.
    replace (S (2 * S m')) with (2 * S m' + 1) by lia.
    rewrite request_even, request_odd. reflexivity.
Qed.

Section Filled.
Context {T : Type}.
Implicit Types (h : list (BinaryLeaf T)) (vs : list T) (v : T).

Lemma length_filled b vs : length (filled b vs) = length vs.
Proof. unfold filled. apply length_imap. Qed.

Lemma lookup_filled b vs i :
  filled b vs !! i = placed b (length vs) i <$> vs !! i.
Proof. unfold filled. apply list_lookup_imap. Qed.

Lemma filled_snoc b vs v :
  filled b (vs ++ [v])
  = imap (placed b (S (length vs))) vs
    ++ [placed b (S (length vs)) (length vs) v].
Proof.
  unfold filled. rewrite length_app, imap_app. simpl.
  rewrite Nat.add_0_r, Nat.add_1_r. reflexivity.
Qed.

Lemma placed_depth_right f :
  uint16_t (placed_depth f + 1) = placed_depth (2 * f + 1).
Proof.
  unfold placed_depth, uint16_t.
  replace (Z.of_nat (2 * f + 1) + 1)%Z with (2 * (Z.of_nat f + 1))%Z by lia.
  rewrite Z.log2_double by lia.
  rewrite Zplus_mod_idemp_l. reflexivity.
Qed.

Lemma placed_depth_left f :
  uint16_t (placed_depth f + 1) = placed_depth (2 * f + 2).
Proof.
  unfold placed_depth, uint16_t.
  replace (Z.of_nat (2 * f + 2) + 1)%Z
    with (2 * (Z.of_nat f + 1) + 1)%Z by lia.
  rewrite Z.log2_succ_double by lia.
  rewrite Zplus_mod_idemp_l. reflexivity.
Qed.

Lemma placed_direction_right f :
  placed_direction (2 * f + 1) = TreeDirection.RIGHT.
Proof.
  unfold placed_direction. rewrite Nat.odd_odd.
  replace (2 * f + 1) with (S (2 * f)) by lia. reflexivity.
Qed.

Lemma placed_direction_left f :
  placed_direction (2 * f + 2) = TreeDirection.LEFT.
Proof.
  unfold placed_direction.
  replace (2 * f + 2) with (S (S (2 * f))) by lia.
  rewrite Nat.odd_succ, Nat.even_succ, Nat.odd_even. reflexivity.
Qed.

Lemma adopt_right b vs f :
  length vs = 2 * f + 1 ->
  alter (set_mRight (Some (b + length vs))) f (imap (placed b (length vs)) vs)
  = imap (placed b (S (length vs))) vs.
Proof.
  intros Hm. apply list_eq. intros i.
  rewrite list_lookup_alter, !list_lookup_imap.
  destruct (vs !! i) as [x|] eqn:Hx; simpl.
  - pose proof (lookup_lt_Some _ _ _ Hx) as Hlt.
    case_decide; subst; rewrite ?list_lookup_imap, ?Hx; simpl;
      unfold placed, set_mRight, child_ptr; simpl;
      repeat case_decide; try lia;
      first [reflexivity | repeat f_equal; lia].
  - case_decide; subst; rewrite ?list_lookup_imap, ?Hx; reflexivity.
Qed.

Lemma adopt_left b vs f :
  length vs = 2 * f + 2 ->
  alter (set_mLeft (Some (b + length vs))) f (imap (placed b (length vs)) vs)
  = imap (placed b (S (length vs))) vs.
Proof.
  intros Hm. apply list_eq. intros i.
  rewrite list_lookup_alter, !list_lookup_imap.
  destruct (vs !! i) as [x|] eqn:Hx; simpl.
  - pose proof (lookup_lt_Some _ _ _ Hx) as Hlt.
    case_decide; subst; rewrite ?list_lookup_imap, ?Hx; simpl;
      unfold placed, set_mLeft, child_ptr; simpl;
      repeat case_decide; try lia;
      first [reflexivity | repeat f_equal; lia].
  - case_decide; subst; rewrite ?list_lookup_imap, ?Hx; reflexivity.
Qed.

Lemma populate_front h0 out0 vs v :
  populate (front_request (length h0) (length vs)) v (built h0 out0 vs)
  = (length h0 + length vs, built h0 out0 (vs ++ [v])).
Proof.
  destruct vs as [|v0 vs'] eqn:Hvs.
  { simpl. unfold built. simpl. rewrite populate_root.
    rewrite !length_app. simpl. rewrite app_nil_r, Nat.add_0_r.
    reflexivity. }
  rewrite <- Hvs. assert (Hlen : length vs = S (length vs')) by (subst; reflexivity).
  clear Hvs. rewrite Hlen at 1. simpl front_request.
  set (b := length h0). unfold built. fold b.
  assert (Hout : forall o, match vs ++ [v] with [] => o | _ :: _ => Some b end
                           = match vs with [] => o | _ :: _ => Some b end).
  { destruct vs; [discriminate | reflexivity]. }
  rewrite Hout.
  assert (Hcell : forall f, f < length vs ->
            (h0 ++ filled b vs) !! (b + f)
            = placed b (length vs) f <$> vs !! f).
  { intros f Hf. rewrite lookup_app_r by (unfold b; lia).
    replace (b + f - length h0) with f by (unfold b; lia).
    apply lookup_filled. }
  assert (Hcut : length (h0 ++ filled b vs) = b + length vs).
  { rewrite length_app, length_filled. reflexivity. }
  destruct (Nat.Even_or_Odd (length vs')) as [[f Hf]|[f Hf]].
  - rewrite Hf, request_even.
    assert (Hlt : f < length vs) by lia.
    destruct (lookup_lt_is_Some_2 vs f Hlt) as [x Hx].
    specialize (Hcell f Hlt). rewrite Hx in Hcell. simpl in Hcell.
    rewrite (populate_right _ _ _ _ _ Hcell). rewrite Hcut.
    f_equal. f_equal.
    unfold b at 2. rewrite alter_app_r. rewrite <- app_assoc. f_equal.
    rewrite filled_snoc. unfold filled.
    rewrite adopt_right by lia. f_equal.
    simpl mDepth. unfold placed. f_equal.
    rewrite placed_depth_right.
    replace (length vs) with (2 * f + 1) by lia.
    rewrite placed_direction_right.
    unfold child_ptr. repeat case_decide; try lia. reflexivity.
  - rewrite Hf, request_odd.
    assert (Hlt : f < length vs) by lia.
    destruct (lookup_lt_is_Some_2 vs f Hlt) as [x Hx].
    specialize (Hcell f Hlt). rewrite Hx in Hcell. simpl in Hcell.
    rewrite (populate_left _ _ _ _ _ Hcell). rewrite Hcut.
    f_equal. f_equal.
    unfold b at 2. rewrite alter_app_r. rewrite <- app_assoc. f_equal.
    rewrite filled_snoc. unfold filled.
    rewrite adopt_left by lia. f_equal.
    simpl mDepth. unfold placed. f_equal.
    rewrite placed_depth_left.
    replace (length vs) with (2 * f + 2) by lia.
    rewrite placed_direction_left.
    unfold child_ptr. repeat case_decide; try lia. reflexivity.
Qed.

Lemma populate_front_at h0 out0 vs v m :
  length vs = m ->
  populate (front_request (length h0) m) v (built h0 out0 vs)
  = (length h0 + m, built h0 out0 (vs ++ [v])).
Proof. intros <-. apply populate_front. Qed.
End Filled.

(** ** The two builders in closed form *)

Section Builders.
Context {T : Type}.
Variable valueDeserializer : deserializer_t T.

Lemma Deserialize_loop_cons curline stream' leafData rest (st : store T) :
  Deserialize_loop valueDeserializer (curline :: stream')
    (leafData :: rest) st
  = if (String.length curline <=? 0)%nat
    then Deserialize_loop valueDeserializer stream' (leafData :: rest) st
    else
      match valueDeserializer curline with
      | None => None
      | Some value =>
          let '(p, st') := populate leafData value st in
          Deserialize_loop valueDeserializer stream'
            (rest ++ child_requests p) st'
      end.
Proof. reflexivity. Qed.

Lemma Deserialize_loop_built (h0 : list (BinaryLeaf T)) out0 stream :
  forall vs,
    Deserialize_loop valueDeserializer stream
      (pending (length h0) (length vs)) (built h0 out0 vs)
    = ws ← read_values valueDeserializer stream;
      Some (built h0 out0 (vs ++ ws)).
Proof.
  unfold read_values.
  induction stream as [|curline stream' IH]; intros vs.
  - simpl. rewrite app_nil_r. reflexivity.
  - rewrite pending_front, Deserialize_loop_cons.
    simpl List.filter. unfold nonblank at 1.
    destruct (String.length curline <=? 0) eqn:Hblank; simpl negb; cbv iota.
    + rewrite <- pending_front. apply IH.
    + simpl mapM.
      destruct (valueDeserializer curline) as [v|]; [|reflexivity].
      rewrite populate_front, <- pending_S.
      replace (S (length vs)) with (length (vs ++ [v]))
        by (rewrite length_app; simpl; lia).
      rewrite IH. simpl.
      destruct (mapM valueDeserializer (List.filter nonblank stream'))
        as [ws|]; simpl; [|reflexivity].
      rewrite <- app_assoc. reflexivity.
Qed.

Lemma Deserialize_built (h0 : list (BinaryLeaf T)) out0 stream :
  Deserialize valueDeserializer stream (mkStore h0 out0)
  = ws ← read_values valueDeserializer stream; Some (built h0 out0 ws).
Proof.
  unfold Deserialize.
  pose proof (Deserialize_loop_built h0 out0 stream []) as H.
  unfold built at 1 in H. simpl in H. rewrite app_nil_r in H. exact H.
Qed.
End Builders.

Section GeneratorBuilt.
Variable rand : nat -> Z.

Lemma length_drawn n : length (drawn rand n) = n.
Proof. unfold drawn. rewrite length_fmap, length_seq. reflexivity. Qed.

Lemma drawn_S n : drawn rand (S n) = drawn rand n ++ [Z.rem (rand n) 255].
Proof. unfold drawn. rewrite seq_S, fmap_app. reflexivity. Qed.

Lemma GenerateTree_loop_cons fuel maxLeaves leafData rest lg calls st :
  GenerateTree_loop rand (S fuel) maxLeaves (leafData :: rest) lg calls st
  = let '(p, st') := populate leafData (Z.rem (rand calls) 255) st in
    if (lg + 1 >=? maxLeaves)%Z then Some (st', S calls)
    else
      GenerateTree_loop rand fuel maxLeaves (rest ++ child_requests p)
        (lg + 1)%Z (S calls) st'.
Proof. reflexivity. Qed.

Lemma GenerateTree_loop_built h0 maxLeaves n :
  n = Z.to_nat (Z.max 1 maxLeaves) ->
  forall k m,
    (m + S k = n)%nat ->
    GenerateTree_loop rand (S k) maxLeaves (pending (length h0) m)
      (Z.of_nat m) m (built h0 None (drawn rand m))
    = Some (built h0 None (drawn rand n), n).
Proof.
  intros Hn. induction k as [|k IH]; intros m Hm.
  - rewrite pending_front, GenerateTree_loop_cons.
    rewrite (populate_front_at _ _ _ _ m (length_drawn m)).
    rewrite <- drawn_S.
    replace (Z.of_nat m + 1 >=? maxLeaves)%Z with true by lia.
    replace (S m) with n by lia. reflexivity.
  - rewrite pending_front, GenerateTree_loop_cons.
    rewrite (populate_front_at _ _ _ _ m (length_drawn m)).
    rewrite <- drawn_S, <- pending_S.
    replace (Z.of_nat m + 1 >=? maxLeaves)%Z with false by lia.
    replace (Z.of_nat m + 1)%Z with (Z.of_nat (S m)) by lia.
    apply IH. lia.
Qed.

Lemma GenerateTree_built h0 maxLeaves :
  GenerateTree rand h0 maxLeaves
  = Some (built h0 None (drawn rand (Z.to_nat (Z.max 1 maxLeaves))),
          Z.to_nat (Z.max 1 maxLeaves)).
Proof.
  unfold GenerateTree.
  set (n := Z.to_nat (Z.max 1 maxLeaves)).
  assert (Hpos : exists k, n = S k) by (exists (pred n); lia).
  destruct Hpos as [k Hk]. rewrite Hk at 1.
  pose proof (GenerateTree_loop_built h0 maxLeaves n eq_refl k 0) as H.
  unfold built at 1 in H. simpl in H. rewrite app_nil_r in H.
  apply H. lia.
Qed.
End GeneratorBuilt.

(** ** A walk is its visiting order

    Over a constant arena the queue evolves in the same way whatever the
    walker does, until the walker stops the walk: every walk is the
    iteration of its walker over the order of the unstopped walk. *)

Section WalkOrder.
Context {T : Type}.
Variable h : list (BinaryLeaf T).

Lemma Walk_loop_run {A} (walker : ptr -> A -> option (bool * A)) :
  forall fuel collected seen out,
    Walk_loop (fun _ => h) fuel collect collected seen = Some out ->
    exists order,
      out = seen ++ order /\
      forall a,
        Walk_loop (fun _ => h) fuel walker collected a
        = run_walker walker order a.
Proof.
  induction fuel as [|fuel IH]; intros collected seen out Hout.
  - destruct collected; [|discriminate].
    injection Hout as <-. exists []. rewrite app_nil_r. auto.
  - destruct collected as [|leaf rest].
    { injection Hout as <-. exists []. rewrite app_nil_r. auto. }
    simpl in Hout |- *.
    destruct (h !! leaf) as [l|]; [|discriminate].
    apply IH in Hout as (order & -> & Hrun).
    exists (leaf :: order). split.
    + rewrite <- app_assoc. reflexivity.
    + intros a. simpl.
      destruct (walker leaf a) as [[[] a']|]; auto.
Qed.

(** The leaves already queued are the next ones visited. *)
Lemma Walk_loop_queue_first :
  forall fuel collected seen out,
    Walk_loop (fun _ => h) fuel collect collected seen = Some out ->
    exists later, out = seen ++ collected ++ later.
Proof.
  induction fuel as [|fuel IH]; intros collected seen out Hout.
  - destruct collected; [|discriminate].
    injection Hout as <-. exists []. simpl. rewrite app_nil_r. reflexivity.
  - destruct collected as [|leaf rest].
    { injection Hout as <-. exists []. simpl. rewrite app_nil_r.
      reflexivity. }
    simpl in Hout.
    destruct (h !! leaf) as [l|]; [|discriminate].
    apply IH in Hout as (later & ->).
    destruct (mRight l), (mLeft l); simpl;
      rewrite <- ?app_assoc; simpl; eauto.
Qed.

Lemma Walk_const_run {A} (walker : ptr -> A -> option (bool * A))
    includeSelf this order a :
  visit_order h includeSelf this = Some order ->
  Walk_const h walker includeSelf this a = run_walker walker order a.
Proof.
  unfold visit_order, Walk_const, Walk. intros Hord.
  destruct includeSelf.
  - apply (Walk_loop_run walker) in Hord as (order' & Heq & Hrun).
    simpl in Heq. subst. apply Hrun.
  - destruct (h !! this) as [t|]; [|discriminate].
    apply (Walk_loop_run walker) in Hord as (order' & Heq & Hrun).
    simpl in Heq. subst. apply Hrun.
Qed.
End WalkOrder.

(** ** The walk over a built tree visits the cells in the order of their
    creation *)

Section WalkFilled.
Context {T : Type}.
Variables (h0 : list (BinaryLeaf T)) (vs : list T).

Lemma lookup_built_cell i :
  i < length vs ->
  exists v,
    vs !! i = Some v
    /\ (h0 ++ filled (length h0) vs) !! (length h0 + i)
       = Some (placed (length h0) (length vs) i v).
Proof.
  intros Hi. destruct (lookup_lt_is_Some_2 vs i Hi) as [v Hv].
  exists v. split; [assumption|].
  rewrite lookup_app_r by lia.
  replace (length h0 + i - length h0) with i by lia.
  rewrite lookup_filled, Hv. reflexivity.
Qed.

Lemma Walk_loop_filled :
  forall fuel k seen,
    k <= length vs -> length vs - k <= fuel ->
    Walk_loop (fun _ => h0 ++ filled (length h0) vs) fuel collect
      (seq (length h0 + k) (Nat.min (2 * k + 1) (length vs) - k)) seen
    = Some (seen ++ seq (length h0 + k) (length vs - k)).
Proof.
  induction fuel as [|fuel IH]; intros k seen Hk Hfuel.
  - replace (length vs - k) with 0 by lia.
    replace (Nat.min (2 * k + 1) (length vs) - k) with 0 by lia.
    simpl. rewrite app_nil_r. reflexivity.
  - destruct (decide (k = length vs)) as [->|Hne].
    { replace (length vs - length vs) with 0 by lia.
      replace (Nat.min (2 * length vs + 1) (length vs) - length vs)
        with 0 by lia.
      simpl. rewrite app_nil_r. reflexivity. }
    assert (Hlt : k < length vs) by lia.
    destruct (lookup_built_cell k Hlt) as (v & Hv & Hcell).
    replace (Nat.min (2 * k + 1) (length vs) - k)
      with (S (Nat.min (2 * k + 1) (length vs) - S k)) by lia.
    replace (length vs - k) with (S (length vs - S k)) by lia.
    simpl. rewrite Hcell. simpl.
    replace (seen ++ length h0 + k
               :: seq (S (length h0 + k)) (length vs - S k))
      with ((seen ++ [length h0 + k])
            ++ seq (length h0 + S k) (length vs - S k))
      by (rewrite <- app_assoc, Nat.add_succ_r; reflexivity).
    rewrite <- (IH (S k) (seen ++ [length h0 + k])) by lia.
    f_equal. unfold child_ptr, push_child.
    rewrite ?Nat.add_0_r, <- Nat.add_succ_r.
    repeat case_decide.
    + replace (Nat.min (2 * S k + 1) (length vs) - S k)
        with (k + 2) by lia.
      replace (Nat.min (k + k + 1) (length vs) - S k) with k by lia.
      rewrite seq_app, <- app_assoc. f_equal. simpl.
      f_equal; [lia | f_equal; lia].
    + lia.
    + replace (Nat.min (2 * S k + 1) (length vs) - S k)
        with (k + 1) by lia.
      replace (Nat.min (k + k + 1) (length vs) - S k) with k by lia.
      rewrite seq_app. f_equal. simpl. f_equal; lia.
    + replace (Nat.min (2 * S k + 1) (length vs) - S k)
        with (length vs - S k) by lia.
      replace (Nat.min (k + k + 1) (length vs) - S k)
        with (length vs - S k) by lia.
      reflexivity.
Qed.

Lemma visit_order_built :
  0 < length vs ->
  visit_order (h0 ++ filled (length h0) vs) true (length h0)
  = Some (seq (length h0) (length vs)).
Proof.
  intros Hm. unfold visit_order, Walk_const, Walk.
  pose proof (Walk_loop_filled (length (h0 ++ filled (length h0) vs)) 0 [])
    as H.
  replace (Nat.min (2 * 0 + 1) (length vs) - 0) with 1 in H by lia.
  rewrite Nat.add_0_r, Nat.sub_0_r in H. simpl in H. apply H; [lia|].
  rewrite length_app, length_filled. lia.
Qed.
End WalkFilled.

(** ** Serializer *)

Section SerializeRun.
Context {T : Type}.
Variables (show : T -> string) (h : list (BinaryLeaf T)).

Lemma run_Serialize_all skipDeep pretty order :
  Forall (passes h skipDeep) order ->
  forall stream,
    run_walker (Serialize_walker show h skipDeep pretty) order stream
    = Some (stream ++ map (line_of show h pretty) order).
Proof.
  induction 1 as [|p order (l & Hl & Hdeep) _ IH]; intros stream.
  - simpl. rewrite app_nil_r. reflexivity.
  - simpl. unfold Serialize_walker at 1. rewrite Hl.
    fold (too_deep skipDeep l). rewrite Hdeep, IH.
    unfold line_of at 2. rewrite Hl, <- app_assoc. reflexivity.
Qed.

Lemma run_Serialize_stop skipDeep pretty before p l after :
  Forall (passes h skipDeep) before ->
  h !! p = Some l -> too_deep skipDeep l = true ->
  forall stream,
    run_walker (Serialize_walker show h skipDeep pretty)
      (before ++ p :: after) stream
    = Some (stream ++ map (line_of show h pretty) before
              ++ [leaf_line show pretty l; truncation_marker]).
Proof.
  intros Hbefore Hl Hdeep.
  induction Hbefore as [|q before (lq & Hq & Hpass) _ IH]; intros stream.
  - simpl. unfold Serialize_walker. rewrite Hl.
    fold (too_deep skipDeep l). rewrite Hdeep, <- app_assoc. reflexivity.
  - simpl. unfold Serialize_walker at 1. rewrite Hq.
    fold (too_deep skipDeep lq). rewrite Hpass, IH.
    unfold line_of at 2. rewrite Hq, <- app_assoc. reflexivity.
Qed.
End SerializeRun.

(** Every leaf a walk visits is a cell of the arena. *)
Lemma Walk_loop_visits_cells {T} (h : list (BinaryLeaf T)) :
  forall fuel collected seen out,
    Walk_loop (fun _ => h) fuel collect collected seen = Some out ->
    exists order, out = seen ++ order /\ Forall (fun p => is_Some (h !! p)) order.
Proof.
  induction fuel as [|fuel IH]; intros collected seen out Hout.
  - destruct collected; [|discriminate].
    injection Hout as <-. exists []. rewrite app_nil_r. auto.
  - destruct collected as [|leaf rest].
    { injection Hout as <-. exists []. rewrite app_nil_r. auto. }
    simpl in Hout.
    destruct (h !! leaf) as [l|] eqn:Hl; [|discriminate].
    apply IH in Hout as (order & -> & Hall).
    exists (leaf :: order). split.
    + rewrite <- app_assoc. reflexivity.
    + constructor; [rewrite Hl; eauto | assumption].
Qed.

Lemma visit_order_cells {T} (h : list (BinaryLeaf T)) includeSelf this order :
  visit_order h includeSelf this = Some order ->
  Forall (fun p => is_Some (h !! p)) order.
Proof.
  unfold visit_order, Walk_const, Walk. intros Hord.
  destruct includeSelf.
  - apply Walk_loop_visits_cells in Hord as (order' & -> & Hall). exact Hall.
  - destruct (h !! this); [|discriminate].
    apply Walk_loop_visits_cells in Hord as (order' & -> & Hall). exact Hall.
Qed.

Lemma uint16_t_of_default : uint16_t (-1) = 65535%Z.
Proof. reflexivity. Qed.

Lemma uint16_t_small z : (0 <= z < 65536)%Z -> uint16_t z = z.
Proof. intros Hz. unfold uint16_t. apply Z.mod_small. lia. Qed.

Lemma no_limit_passes {T} (h : list (BinaryLeaf T)) order :
  depths_fit h ->
  Forall (fun p => is_Some (h !! p)) order ->
  Forall (passes h 65535) order.
Proof.
  intros Hfit Hcells. eapply Forall_impl; [exact Hcells|].
  intros p [l Hl]. exists l. split; [assumption|].
  unfold depths_fit in Hfit. rewrite Forall_lookup in Hfit.
  specialize (Hfit _ _ Hl). unfold too_deep. simpl.
  apply Z.ltb_ge. lia.
Qed.

(** ** Walks over trees of the arena *)

Section WalkTree.
Context {T : Type}.
Variable h : list (BinaryLeaf T).

Lemma push_child_app (c : option ptr) (q : list ptr) :
  push_child c q = q ++ option_list c.
Proof. destruct c; simpl; [reflexivity | rewrite app_nil_r; reflexivity]. Qed.

Lemma Walk_loop_collect_cons fuel leaf rest seen n :
  h !! leaf = Some n ->
  Walk_loop (fun _ => h) (S fuel) collect (leaf :: rest) seen
  = Walk_loop (fun _ => h) fuel collect
      (push_child (mLeft n) (push_child (mRight n) rest)) (seen ++ [leaf]).
Proof. intros Hn. simpl. rewrite Hn. reflexivity. Qed.

Lemma roots_pair (r l : tree) :
  omap root_of [r; l] = option_list (root_of r) ++ option_list (root_of l).
Proof. destruct r, l; reflexivity. Qed.

Lemma Walk_loop_forest :
  forall fuel ts seen,
    Forall (repr h) ts ->
    length (ts ≫= nodes) <= fuel ->
    exists order,
      Walk_loop (fun _ => h) fuel collect (omap root_of ts) seen
      = Some (seen ++ order)
      /\ order ≡ₚ ts ≫= nodes.
Proof.
  induction fuel as [|fuel IH]; intros ts; induction ts as [|t ts IHts];
    intros seen Hrepr Hfuel.
  - exists []. simpl. rewrite app_nil_r. auto.
  - apply Forall_cons in Hrepr as [Ht Hts].
    destruct t as [|p r l]; [|simpl in Hfuel; lia].
    simpl. apply IHts; assumption.
  - exists []. simpl. rewrite app_nil_r. auto.
  - apply Forall_cons in Hrepr as [Ht Hts].
    destruct t as [|p r l].
    { simpl. apply IHts; assumption. }
    destruct Ht as (n & Hn & Hr & Hl & Hrr & Hrl).
    rewrite bind_cons in Hfuel. simpl in Hfuel.
    rewrite !length_app in Hfuel.
    destruct (IH (ts ++ [r; l]) (seen ++ [p])) as (order & Hwalk & Hperm).
    { apply Forall_app. split; [assumption|]. repeat constructor; assumption. }
    { rewrite bind_app, length_app. simpl. rewrite app_nil_r, length_app. lia. }
    exists (p :: order). split.
    + change (omap root_of (Node p r l :: ts)) with (p :: omap root_of ts).
      rewrite (Walk_loop_collect_cons _ _ _ _ _ Hn).
      rewrite !push_child_app, Hr, Hl, <- app_assoc.
      rewrite omap_app, roots_pair in Hwalk.
      rewrite Hwalk, <- app_assoc. reflexivity.
    + rewrite Hperm, bind_cons, bind_app. simpl. rewrite app_nil_r.
      constructor. apply Permutation_app_comm.
Qed.

Lemma repr_nodes_cells t :
  repr h t -> Forall (fun p => p < length h) (nodes t).
Proof.
  induction t as [|p r IHr l IHl]; simpl.
  - constructor.
  - intros (n & Hn & _ & _ & Hr & Hl).
    constructor; [eapply lookup_lt_Some; eauto|].
    apply Forall_app. auto.
Qed.

Lemma NoDup_cells_length (ps : list ptr) :
  NoDup ps -> Forall (fun p => p < length h) ps -> length ps <= length h.
Proof.
  intros Hnd Hlt.
  transitivity (length (seq 0 (length h))); [|rewrite length_seq; lia].
  apply submseteq_length, NoDup_submseteq; [assumption|].
  intros p Hp. rewrite Forall_forall in Hlt.
  apply elem_of_seq. specialize (Hlt p Hp). lia.
Qed.

(** The walk from the root of a tree visits the nodes of the tree. *)
Lemma visit_order_tree p r l :
  repr h (Node p r l) -> NoDup (nodes (Node p r l)) ->
  exists order,
    visit_order h true p = Some order /\ order ≡ₚ nodes (Node p r l).
Proof.
  intros Hrepr Hnd. unfold visit_order, Walk_const, Walk.
  destruct (Walk_loop_forest (length h) [Node p r l] []) as (order & Hw & Hp).
  - repeat constructor. exact Hrepr.
  - rewrite bind_singleton.
    apply NoDup_cells_length; [assumption | apply repr_nodes_cells; assumption].
  - exists order. rewrite bind_singleton in Hp. auto.
Qed.

(** The walk that leaves the start out visits its proper descendants. *)
Lemma visit_order_descendants p r l :
  repr h (Node p r l) -> NoDup (nodes (Node p r l)) ->
  exists order,
    visit_order h false p = Some order
    /\ order ≡ₚ descendants (Node p r l).
Proof.
  intros Hrepr Hnd. unfold visit_order, Walk_const, Walk.
  pose proof (repr_nodes_cells _ Hrepr) as Hcells.
  destruct Hrepr as (n & Hn & Hr & Hl & Hrr & Hrl). rewrite Hn.
  destruct (Walk_loop_forest (length h) [l; r] []) as (order & Hw & Hp).
  - repeat constructor; assumption.
  - transitivity (length (nodes (Node p r l))).
    + simpl. rewrite app_nil_r, !length_app. lia.
    + apply NoDup_cells_length; assumption.
  - exists order. split.
    + simpl app in Hw. rewrite <- Hw, Hr, Hl.
      destruct r, l; reflexivity.
    + rewrite Hp. simpl. rewrite app_nil_r. apply Permutation_app_comm.
Qed.
End WalkTree.

(** ** Sibling order of a walk *)

Lemma Walk_loop_siblings {T} (h : list (BinaryLeaf T)) :
  forall fuel collected seen out,
    Walk_loop (fun _ => h) fuel collect collected seen = Some out ->
    exists order,
      out = seen ++ order /\
      forall p n r l,
        p ∈ order -> h !! p = Some n ->
        mRight n = Some r -> mLeft n = Some l ->
        exists before after, order = before ++ r :: l :: after.
Proof.
  induction fuel as [|fuel IH]; intros collected seen out Hout.
  - destruct collected; [|discriminate].
    injection Hout as <-. exists []. rewrite app_nil_r. split; [reflexivity|].
    intros p n r l Hp. inversion Hp.
  - destruct collected as [|leaf rest].
    { injection Hout as <-. exists []. rewrite app_nil_r. split; [reflexivity|].
      intros p n r l Hp. inversion Hp. }
    simpl in Hout.
    destruct (h !! leaf) as [nl|] eqn:Hleaf; [|discriminate].
    pose proof (Walk_loop_queue_first _ _ _ _ _ Hout) as (later & Hlater).
    apply IH in Hout as (order & -> & Hadj).
    apply app_inv_head in Hlater.
    exists (leaf :: order). split.
    { rewrite <- app_assoc. reflexivity. }
    intros p n r l Hp Hn Hr Hl.
    apply elem_of_cons in Hp as [->|Hp].
    + rewrite Hleaf in Hn. injection Hn as ->.
      rewrite Hr, Hl in Hlater. simpl in Hlater.
      exists (leaf :: rest), later. rewrite Hlater.
      simpl. rewrite <- !app_assoc. reflexivity.
    + destruct (Hadj p n r l Hp Hn Hr Hl) as (before & after & ->).
      exists (leaf :: before), after. reflexivity.
Qed.

(** ** Statistic engine *)

Lemma int_add_l a b : int (int a + b) = int (a + b).
Proof.
  unfold int. f_equal.
  replace ((a + 2147483648) mod 4294967296 - 2147483648 + b + 2147483648)%Z
    with ((a + 2147483648) mod 4294967296 + b)%Z by lia.
  rewrite Zplus_mod_idemp_l. f_equal. lia.
Qed.

Lemma int_add_r a b : int (a + int b) = int (a + b).
Proof. rewrite Z.add_comm, int_add_l, Z.add_comm. reflexivity. Qed.

Lemma int_small z : (INT_MIN <= z <= INT_MAX)%Z -> int z = z.
Proof.
  unfold INT_MIN, INT_MAX, int. intros Hz.
  rewrite Z.mod_small by lia. lia.
Qed.

Lemma weight_sum_app h ps qs :
  weight_sum h (ps ++ qs) = (weight_sum h ps + weight_sum h qs)%Z.
Proof.
  induction ps as [|p ps IH]; simpl; [reflexivity|]. rewrite IH. lia.
Qed.

Lemma weight_sum_Permutation h ps qs :
  ps ≡ₚ qs -> weight_sum h ps = weight_sum h qs.
Proof.
  induction 1; simpl; try lia.
Qed.

Lemma run_ratio_walker h order :
  Forall (fun p => is_Some (h !! p)) order ->
  forall c w,
    run_walker (ratio_walker h) order (int c, int w)
    = Some (int (c + Z.of_nat (length order)), int (w + weight_sum h order)).
Proof.
  induction 1 as [|p order [l Hl] _ IH]; intros c w.
  - simpl. rewrite !Z.add_0_r. reflexivity.
  - simpl run_walker. unfold ratio_walker at 1. rewrite Hl.
    unfold weight. rewrite int_add_l, int_add_l, int_add_r, IH.
    change (weight_sum h (p :: order))
      with (exact_weight h p + weight_sum h order)%Z.
    unfold exact_weight at 1. rewrite Hl.
    change (length (p :: order)) with (S (length order)).
    f_equal. f_equal; apply f_equal; lia.
Qed.

(** * The claims *)

(** ** C3: the three-line example *)

(** C3, as stated, fails: after the lines 5, 3, 8 the root does have a left
    child.  No run of [Deserialize] on these lines yields a root 5 at depth 0
    with right child 3 (depth 1, RIGHT) and an absent left child. *)
Lemma Deserialize_5_3_8_left_not_absent :
  ~ (exists st root n rp r,
        Deserialize stoi ["5"; "3"; "8"]%string (mkStore [] None) = Some st
        /\ caller_var st = Some root
        /\ cells st !! root = Some n
        /\ mValue n = 5%Z /\ mDepth n = 0%Z
        /\ mRight n = Some rp /\ cells st !! rp = Some r
        /\ mValue r = 3%Z /\ mDepth r = 1%Z
        /\ mDirection r = TreeDirection.RIGHT
        /\ mLeft n = None).
Proof.
  intros (st & root & n & rp & r & Hst & Hroot & Hn & _ & _ & _ & _ & _ & _ & _
          & Hleft).
  vm_compute in Hst. injection Hst as <-.
  simpl in Hroot. injection Hroot as <-.
  simpl in Hn. injection Hn as <-.
  discriminate Hleft.
Qed.

(** C3, amended: the lines 5, 3, 8 deserialize into the root 5 (depth 0),
    its right child 3 (depth 1, direction RIGHT) and its left child 8
    (depth 1, direction LEFT): the third line fills the left slot. *)
Theorem Deserialize_5_3_8 :
  Deserialize stoi ["5"; "3"; "8"]%string (mkStore [] None)
  = Some (mkStore tree_5_3_8 (Some 0)).
Proof. vm_compute. reflexivity. Qed.

(** ** C2: the seeds of the min/max search *)

(** A budget of one leaf gives a one-leaf tree. *)
Lemma GenerateTree_one_leaf (rand : nat -> Z) :
  GenerateTree rand [] 1
  = Some (mkStore [BinaryLeaf_new (Z.rem (rand 0) 255)] (Some 0), 1).
Proof. reflexivity. Qed.

(** C2 fails on the code: [main] seeds the maximum with 0.0, and the ratio
    of the root of a one-leaf tree is 0, which is not greater: the search
    returns with the maximum holder still [nullptr]. *)
Theorem main_search_single_leaf (v : Z) :
  main_search [BinaryLeaf_new v] 0
  = Some (mkMinMax (0 # 1) (Some 0) (0 # 1) None).
Proof. reflexivity. Qed.

(** ** C7: destruction *)

Lemma Deserialize_1_2_3_4 :
  Deserialize stoi ["1"; "2"; "3"; "4"]%string (mkStore [] None)
  = Some (mkStore tree_1_2_3_4 (Some 0)).
Proof. vm_compute. reflexivity. Qed.

(** C7 fails on the code: deleting the root of a tree with a grandchild
    deletes the grandchild (cell 3) twice, once by the destructor of its
    parent and once more by the walk of the root, which had queued it
    before its parent was deleted. *)
Theorem delete_root_deletes_grandchild_twice (depth fuel : nat) :
  delete (3 + depth) (3 + fuel) 0 (mkMemory tree_1_2_3_4 [])
  = Some (mkMemory tree_1_2_3_4 [2; 3; 1; 3; 0]).
Proof. destruct fuel; reflexivity. Qed.

(** The destructors nest as deep as the tree: two nested calls are not
    enough for a tree of three levels. *)
Lemma delete_root_needs_nested_destructors (fuel : nat) :
  delete 2 fuel 0 (mkMemory tree_1_2_3_4 []) = None.
Proof. destruct fuel as [|[|fuel]]; reflexivity. Qed.

(** ** C4: sibling order of the walk *)

(** C4 fails on the code.  In the tree read from the lines 5, 3, 8 the root
    has its right child in cell 1 and its left child in cell 2.  The walk
    that includes the root visits the right child before the left child, the
    order in which the loop of [Walk] queues the children of a leaf (btree.hpp
    174-182).  The walk that leaves the root out visits the left child
    first: the seed of the queue pushes [mLeft] before [mRight] (btree.hpp
    154-162).  This is the order in which every walker is called, whatever it
    does. *)
Theorem Walk_without_start_visits_left_first :
  (mRight <$> tree_5_3_8 !! 0) = Some (Some 1)
  /\ (mLeft <$> tree_5_3_8 !! 0) = Some (Some 2)
  /\ visit_order tree_5_3_8 true 0 = Some [0; 1; 2]
  /\ visit_order tree_5_3_8 false 0 = Some [2; 1]
  /\ (forall (A : Type) (walker : ptr -> A -> option (bool * A)) (a : A),
        Walk_const tree_5_3_8 walker true 0 a
        = run_walker walker [0; 1; 2] a
        /\ Walk_const tree_5_3_8 walker false 0 a
           = run_walker walker [2; 1] a).
Proof.
  repeat split; apply Walk_const_run; reflexivity.
Qed.

(** The rule that the children of the start seed the queue right before
    left is false of the walks that leave their start out. *)
Lemma Walk_seed_not_right_first :
  ~ (forall (h : list (BinaryLeaf Z)) this t r l order,
        h !! this = Some t ->
        mRight t = Some r -> mLeft t = Some l ->
        visit_order h false this = Some order ->
        exists rest, order = r :: l :: rest).
Proof.
  intros Hclaim.
  destruct (Hclaim tree_5_3_8 0 _ 1 2 [2; 1] eq_refl eq_refl eq_refl eq_refl)
    as [rest Hrest].
  discriminate Hrest.
Qed.

(** In a walk that is not stopped, the two children of a visited leaf are
    visited one right after the other, the right child first; a walk that
    includes its start visits it first; a walk that leaves its start out
    begins with the left child of the start and then its right child. *)
Lemma Walk_sibling_order {T} (h : list (BinaryLeaf T)) (includeSelf : bool)
    (this : ptr) (order : list ptr) :
  visit_order h includeSelf this = Some order ->
  (forall p n r l,
      p ∈ order -> h !! p = Some n ->
      mRight n = Some r -> mLeft n = Some l ->
      exists before after, order = before ++ r :: l :: after)
  /\ (includeSelf = true -> exists rest, order = this :: rest)
  /\ (includeSelf = false ->
      forall t, h !! this = Some t ->
      exists rest,
        order = option_list (mLeft t) ++ option_list (mRight t) ++ rest).
Proof.
  unfold visit_order, Walk_const, Walk. intros Hord.
  destruct includeSelf.
  - pose proof (Walk_loop_queue_first _ _ _ _ _ Hord) as (later & Hq).
    apply Walk_loop_siblings in Hord as (order' & Heq & Hadj).
    simpl in Heq, Hq. subst order'. split; [exact Hadj|]. split.
    + intros _. exists later. exact Hq.
    + discriminate.
  - destruct (h !! this) as [t|] eqn:Ht; [|discriminate].
    pose proof (Walk_loop_queue_first _ _ _ _ _ Hord) as (later & Hq).
    apply Walk_loop_siblings in Hord as (order' & Heq & Hadj).
    simpl in Heq, Hq. subst order'. split; [exact Hadj|]. split.
    + discriminate.
    + intros _ t' Ht'. injection Ht' as <-. exists later. rewrite Hq.
      rewrite !push_child_app. simpl. rewrite <- app_assoc. reflexivity.
Qed.

Lemma Walk_sibling_order_witness :
  (exists before after, [0; 1; 2] = before ++ 1 :: 2 :: after)
  /\ (exists before after, [2; 1] = before ++ 2 :: 1 :: after).
Proof.
  split.
  - destruct (Walk_sibling_order tree_5_3_8 true 0 [0; 1; 2] eq_refl)
      as (Hadj & _ & _).
    apply (Hadj 0 (mkLeaf 5%Z 0%Z TreeDirection.ROOT (Some 1) (Some 2)) 1 2);
      [| reflexivity | reflexivity | reflexivity].
    apply list_elem_of_here.
  - destruct (Walk_sibling_order tree_5_3_8 false 0 [2; 1] eq_refl)
      as (_ & _ & Hseed).
    destruct (Hseed eq_refl _ eq_refl) as [rest Hrest].
    exists [], rest. exact Hrest.
Defined.

(** ** C6: the subtree ratio *)

Lemma repr_no_children {T} (h : list (BinaryLeaf T)) p r l n :
  repr h (Node p r l) -> h !! p = Some n ->
  mRight n = None -> mLeft n = None -> r = Nil /\ l = Nil.
Proof.
  intros (n' & Hn' & Hr & Hl & _ & _) Hn HR HL.
  rewrite Hn in Hn'. injection Hn' as <-.
  rewrite HR in Hr. rewrite HL in Hl.
  destruct r, l; try discriminate. auto.
Qed.

Lemma Qdiv_one (z : Z) : (inject_Z z / inject_Z 1)%Q = inject_Z z.
Proof.
  unfold Qdiv, Qmult, Qinv, inject_Z. simpl. rewrite Z.mul_1_r. reflexivity.
Qed.

Lemma Qred_inject_Z (z : Z) : Qred (inject_Z z) = inject_Z z.
Proof.
  unfold Qred, inject_Z.
  pose proof (Z.ggcd_gcd z 1) as Hg.
  pose proof (Z.ggcd_correct_divisors z 1) as Hd.
  destruct (Z.ggcd z 1) as [g [aa bb]]. simpl in Hg, Hd.
  rewrite Z.gcd_1_r in Hg. subst g. destruct Hd as [Ha Hb].
  replace aa with z by lia. replace bb with 1%Z by lia. reflexivity.
Qed.

Lemma round_half_even_comp (x y : Q) :
  (x == y)%Q -> round_half_even x = round_half_even y.
Proof.
  intros Hxy. unfold round_half_even.
  rewrite (Qfloor_comp x y Hxy).
  assert (Hc : (x - inject_Z (Qfloor y) ?= 1 # 2)%Q
               = (y - inject_Z (Qfloor y) ?= 1 # 2)%Q).
  { apply Qcompare_comp; [|reflexivity]. rewrite Hxy. reflexivity. }
  rewrite Hc. reflexivity.
Qed.

Lemma round_half_even_Z (z : Z) : round_half_even (inject_Z z) = z.
Proof.
  unfold round_half_even. rewrite Qfloor_Z.
  assert (Hlt : Qcompare (inject_Z z - inject_Z z) (1 # 2) = Lt).
  { apply Qlt_alt.
    assert (H0 : (inject_Z z - inject_Z z == 0)%Q) by ring.
    rewrite H0. reflexivity. }
  rewrite Hlt. reflexivity.
Qed.

(** [round_half_even] answers an integer nearest to its argument. *)
Lemma round_half_even_nearest (q : Q) :
  (Qabs (inject_Z (round_half_even q) - q) <= 1 # 2)%Q.
Proof.
  pose proof (Qfloor_le q) as Hlo. pose proof (Qlt_floor q) as Hhi.
  rewrite inject_Z_plus in Hhi. change (inject_Z 1) with 1%Q in Hhi.
  apply Qabs_Qle_condition. unfold round_half_even.
  destruct (Qcompare_spec (q - inject_Z (Qfloor q)) (1 # 2)) as [He|Hl|Hg].
  - destruct (Z.even (Qfloor q));
      rewrite ?inject_Z_plus; change (inject_Z 1) with 1%Q; lra.
  - lra.
  - rewrite inject_Z_plus. change (inject_Z 1) with 1%Q. lra.
Qed.

Lemma Qabs_make (n : Z) (d : positive) :
  (Qabs (n # d) == inject_Z (Z.abs n) / inject_Z (Zpos d))%Q.
Proof.
  rewrite <- Zabs_Qabs. rewrite (Qmake_Qdiv (Z.abs n) d). reflexivity.
Qed.

(** [binade q] is the exponent of the power of two at or just below
    [|q|]. *)
Lemma binade_spec (q : Q) :
  ~ (q == 0)%Q -> (2 ^ binade q <= Qabs q /\ Qabs q < 2 ^ (binade q + 1))%Q.
Proof.
  intros Hq. destruct q as [n d].
  assert (Hn : n <> 0%Z).
  { intros ->. apply Hq. reflexivity. }
  set (a := Z.abs n). assert (Ha : (0 < a)%Z) by (unfold a; lia).
  pose proof (Z.log2_spec a Ha) as [Ha1 Ha2].
  pose proof (Z.log2_spec (Zpos d) ltac:(lia)) as [Hd1 Hd2].
  pose proof (Z.log2_nonneg a) as Hla.
  pose proof (Z.log2_nonneg (Zpos d)) as Hld.
  set (la := Z.log2 a) in *. set (ld := Z.log2 (Zpos d)) in *.
  assert (H2 : ~ (2 == 0)%Q) by discriminate.
  assert (Hpow : forall k, (0 <= k)%Z -> (2 ^ k == inject_Z (2 ^ k))%Q).
  { intros k Hk. rewrite Zpower_Qpower by assumption. reflexivity. }
  assert (Habs : (Qabs (n # d) == inject_Z a / inject_Z (Zpos d))%Q)
    by apply Qabs_make.
  assert (Hdpos : (0 < inject_Z (Zpos d))%Q) by reflexivity.
  assert (Hlow : (2 ^ (la - ld - 1) <= Qabs (n # d))%Q).
  { rewrite Habs. replace (la - ld - 1)%Z with (la - (ld + 1))%Z by lia.
    rewrite Qpower_minus by assumption.
    rewrite !Hpow by lia.
    apply Qle_shift_div_l; [assumption|].
    unfold Qdiv. rewrite <- Qmult_assoc, (Qmult_comm (/ _)), Qmult_assoc.
    apply Qle_shift_div_r.
    { rewrite <- (Hpow (ld + 1)%Z) by lia. apply Qpower_0_lt. reflexivity. }
    rewrite <- !inject_Z_mult, <- Zle_Qle. nia. }
  assert (Hup : (Qabs (n # d) < 2 ^ (la - ld + 1))%Q).
  { rewrite Habs. replace (la - ld + 1)%Z with (la + 1 - ld)%Z by lia.
    rewrite Qpower_minus by assumption.
    rewrite !Hpow by lia.
    apply Qlt_shift_div_r; [assumption|].
    unfold Qdiv. rewrite <- Qmult_assoc, (Qmult_comm (/ _)), Qmult_assoc.
    apply Qlt_shift_div_l.
    { rewrite <- (Hpow ld) by lia. apply Qpower_0_lt. reflexivity. }
    rewrite <- !inject_Z_mult, <- Zlt_Qlt. nia. }
  unfold binade. simpl Qnum. simpl Qden. fold a. fold la. fold ld.
  destruct (Qle_bool (2 ^ (la - ld)) (Qabs (n # d))) eqn:E.
  - apply Qle_bool_iff in E. split; assumption.
  - split; [assumption|].
    replace (la - ld - 1 + 1)%Z with (la - ld)%Z by lia.
    apply Qnot_le_lt. intros Hle. apply Qle_bool_iff in Hle. congruence.
Qed.

(** In the normal range [round_double q] is a multiple of the spacing
    2^(e-52) of the doubles around [q], and lies within half that spacing of
    [q]: it is a double nearest to [q]. *)
Lemma round_double_nearest (q : Q) :
  ~ (q == 0)%Q -> (-1022 <= binade q)%Z ->
  (exists m : Z, round_double q == inject_Z m * 2 ^ (binade q - 52))%Q
  /\ (Qabs (round_double q - q) <= 2 ^ (binade q - 53))%Q.
Proof.
  intros Hq He. unfold round_double.
  destruct (Qeq_bool q 0) eqn:E; [apply Qeq_bool_eq in E; contradiction|].
  rewrite Z.max_l by lia.
  set (ulp := (2 ^ (binade q - 52))%Q).
  assert (Hulp : (0 < ulp)%Q) by (apply Qpower_0_lt; reflexivity).
  assert (Hulp0 : ~ (ulp == 0)%Q) by (intros H0; rewrite H0 in Hulp; discriminate).
  set (m := round_half_even (q / ulp)).
  split; [exists m; apply Qred_correct|].
  rewrite Qred_correct.
  assert (Hdiff : (inject_Z m * ulp - q == (inject_Z m - q / ulp) * ulp)%Q)
    by (field; exact Hulp0).
  rewrite Hdiff, Qabs_Qmult, (Qabs_pos ulp) by (apply Qlt_le_weak, Hulp).
  assert (Hhalf : (2 ^ (binade q - 53) == (1 # 2) * ulp)%Q).
  { unfold ulp. replace (binade q - 53)%Z with (binade q - 52 - 1)%Z by lia.
    rewrite Qpower_minus by discriminate. change (2 ^ 1)%Q with 2%Q. field. }
  rewrite Hhalf. apply Qmult_le_compat_r; [|apply Qlt_le_weak, Hulp].
  apply round_half_even_nearest.
Qed.

(** An integer of at most 53 bits is a double: rounding leaves it as it
    is.  Every [int] is such an integer. *)
Lemma round_double_int (z : Z) :
  (Z.abs z < 2 ^ 53)%Z -> round_double (inject_Z z) = inject_Z z.
Proof.
  intros Hz. unfold round_double.
  destruct (Qeq_bool (inject_Z z) 0) eqn:E.
  - apply Qeq_bool_eq in E. unfold Qeq, inject_Z in E. simpl in E.
    replace z with 0%Z by lia. reflexivity.
  - assert (Hz0 : z <> 0%Z).
    { intros ->. discriminate E. }
    assert (Hk : binade (inject_Z z) = Z.log2 (Z.abs z)).
    { unfold binade. simpl Qnum. simpl Qden.
      change (Z.log2 1) with 0%Z. rewrite Z.sub_0_r.
      assert (Hle : Qle_bool (2 ^ Z.log2 (Z.abs z)) (Qabs (inject_Z z)) = true).
      { apply Qle_bool_iff.
        change (Qabs (inject_Z z)) with (inject_Z (Z.abs z)).
        change (2%Q) with (inject_Z 2).
        rewrite <- Zpower_Qpower by apply Z.log2_nonneg.
        rewrite <- Zle_Qle. apply Z.log2_spec. lia. }
      rewrite Hle. reflexivity. }
    rewrite Hk.
    set (k := Z.log2 (Z.abs z)).
    assert (Hk0 : (0 <= k)%Z) by apply Z.log2_nonneg.
    assert (Hk52 : (k < 53)%Z) by (apply Z.log2_lt_pow2; lia).
    rewrite Z.max_l by lia.
    set (P := (2 ^ (52 - k))%Z).
    assert (HP : (0 < P)%Z) by (apply Z.pow_pos_nonneg; lia).
    assert (Hu : (2 ^ (k - 52) == / inject_Z P)%Q).
    { replace (k - 52)%Z with (- (52 - k))%Z by lia.
      rewrite Qpower_opp. unfold P.
      rewrite Zpower_Qpower by lia. reflexivity. }
    assert (HP0 : ~ (inject_Z P == 0)%Q).
    { unfold Qeq, inject_Z. simpl. lia. }
    assert (H1 : (inject_Z z / 2 ^ (k - 52) == inject_Z (z * P))%Q).
    { rewrite Hu, inject_Z_mult. field. exact HP0. }
    rewrite (round_half_even_comp _ _ H1), round_half_even_Z.
    rewrite <- (Qred_inject_Z z). apply Qred_complete.
    rewrite Hu, inject_Z_mult. field. exact HP0.
Qed.

Lemma fits_int_spec (z : Z) :
  fits_int z = true <-> (INT_MIN <= z <= INT_MAX)%Z.
Proof.
  unfold fits_int. rewrite andb_true_iff, !Z.leb_le. reflexivity.
Qed.

Lemma sum_fits_total (h : list (BinaryLeaf Z)) (order : list ptr) :
  forall acc,
    fits_int acc = true -> sum_fits h acc order = true ->
    fits_int (acc + weight_sum h order) = true.
Proof.
  induction order as [|q order IH]; intros acc Hacc Hfit.
  - simpl. rewrite Z.add_0_r. exact Hacc.
  - simpl in Hfit. apply andb_true_iff in Hfit as [Hq Hrest].
    apply andb_true_iff in Hq as [_ Hq].
    change (weight_sum h (q :: order))
      with (exact_weight h q + weight_sum h order)%Z.
    rewrite Z.add_assoc. apply IH; assumption.
Qed.

(** C6, as stated, fails, in two ways.  The sum is taken in [int]: on the
    tree read from the lines 0, 2147483647, 1 the weights add up to 2^31,
    which is no [int]; the code, where the sum wraps around, answers
    -2^31 / 2 and not 2^31 / 2.  And the quotient is rounded to a double: on
    the tree read from the lines 0, 1, 0, 0 the sum is 1, the root has three
    descendants, and the answer is the double next to 1/3, which is not
    1/3. *)
Lemma GetWeightSumChildrenRatio_not_the_quotient :
  Deserialize stoi ["0"; "2147483647"; "1"]%string (mkStore [] None)
  = Some (mkStore tree_0_max_1 (Some 0))
  /\ weight_sum tree_0_max_1 [0; 1; 2] = 2147483648%Z
  /\ GetWeightSumChildrenRatio tree_0_max_1 0 = Some (-1073741824 # 1)
  /\ Deserialize stoi ["0"; "1"; "0"; "0"]%string (mkStore [] None)
     = Some (mkStore tree_0_1_0_0 (Some 0))
  /\ weight_sum tree_0_1_0_0 [0; 1; 2; 3] = 1%Z
  /\ GetWeightSumChildrenRatio tree_0_1_0_0 0
     = Some (6004799503160661 # 18014398509481984)
  /\ ~ (6004799503160661 # 18014398509481984 == 1 # 3)%Q.
Proof.
  repeat split; try (vm_compute; reflexivity).
  vm_compute. discriminate.
Qed.

(** C6, amended.  Let [p] be the node at the root of a tree [t] of the
    arena, and let no [int] operation of the computation overflow: the
    weight depth * value of [p] and of every descendant is an [int], so is
    every running sum in the order in which the walk visits the descendants,
    and so is the number of descendants.  Then the ratio is the double
    nearest to the quotient of the sum of depth * value over [p] and all its
    descendants by max(1, number of descendants): [p] counts in the
    numerator and not in the denominator.  For a node without children the
    ratio is depth * value, exactly. *)
Theorem GetWeightSumChildrenRatio_spec (h : list (BinaryLeaf Z)) (t : tree)
    (p : ptr) (n : BinaryLeaf Z) :
  root_of t = Some p -> repr h t -> NoDup (nodes t) ->
  h !! p = Some n ->
  fits_int (mDepth n * mValue n) = true ->
  (forall order,
      visit_order h false p = Some order ->
      sum_fits h (mDepth n * mValue n) order = true) ->
  (Z.of_nat (length (descendants t)) <= INT_MAX)%Z ->
  GetWeightSumChildrenRatio h p
  = Some (round_double
            (inject_Z (weight_sum h (nodes t))
             / inject_Z (Z.max 1 (Z.of_nat (length (descendants t))))))
  /\ (mRight n = None -> mLeft n = None ->
      GetWeightSumChildrenRatio h p = Some (inject_Z (mDepth n * mValue n))).
Proof.
  intros Hroot Hrepr Hnd Hn Hown Hrun Hcount.
  destruct t as [|p' r l]; [discriminate|].
  injection Hroot as ->.
  assert (Hmain :
    GetWeightSumChildrenRatio h p
    = Some (round_double
              (inject_Z (weight_sum h (nodes (Node p r l)))
               / inject_Z
                   (Z.max 1 (Z.of_nat (length (descendants (Node p r l)))))))).
  { destruct (visit_order_descendants h p r l Hrepr Hnd) as (order & Hord & Hperm).
    pose proof (sum_fits_total h order _ Hown (Hrun order Hord)) as Hsum.
    apply fits_int_spec in Hsum.
    unfold GetWeightSumChildrenRatio. rewrite Hn.
    rewrite (Walk_const_run h (ratio_walker h) false p order _ Hord).
    change (0%Z, weight n) with (int 0, int (mDepth n * mValue n)).
    rewrite run_ratio_walker by (eapply visit_order_cells; eassumption).
    rewrite int_small by assumption.
    rewrite (weight_sum_Permutation _ _ _ Hperm).
    rewrite (Permutation_length Hperm).
    rewrite (int_small (0 + _)) by (unfold INT_MIN, INT_MAX in *; lia).
    replace (mDepth n * mValue n + weight_sum h (descendants (Node p r l)))%Z
      with (weight_sum h (nodes (Node p r l)))
      by (simpl; unfold exact_weight; rewrite Hn; reflexivity).
    reflexivity. }
  split; [exact Hmain|].
  intros HR HL.
  destruct (repr_no_children h p r l n Hrepr Hn HR HL) as [-> ->].
  rewrite Hmain. simpl. unfold exact_weight. rewrite Hn.
  rewrite Z.add_0_r. change (Z.max 1 0) with 1%Z.
  rewrite Qdiv_one, round_double_int; [reflexivity|].
  apply fits_int_spec in Hown. unfold INT_MIN, INT_MAX in Hown.
  change (2 ^ 53)%Z with 9007199254740992%Z. lia.
Qed.

Lemma GetWeightSumChildrenRatio_spec_witness :
  GetWeightSumChildrenRatio tree_5_3_8 0 = Some (11 # 2).
Proof.
  refine (proj1 (GetWeightSumChildrenRatio_spec tree_5_3_8
            (Node 0 (Node 1 Nil Nil) (Node 2 Nil Nil)) 0
            (mkLeaf 5%Z 0%Z TreeDirection.ROOT (Some 1) (Some 2))
            eq_refl _ _ eq_refl eq_refl _ _)).
  - simpl. eexists. repeat split; eexists; repeat split.
  - apply (bool_decide_unpack _). reflexivity.
  - intros order Hord. vm_compute in Hord. injection Hord as <-. reflexivity.
  - vm_compute. discriminate.
Defined.

(** ** C9: truncation *)

Lemma within_limit_passes {T} (h : list (BinaryLeaf T)) limit before :
  Forall (fun q => exists lq, h !! q = Some lq /\ (mDepth lq <= limit)%Z) before ->
  Forall (passes h limit) before.
Proof.
  intros Hbefore. eapply Forall_impl; [exact Hbefore|].
  intros q (lq & Hq & Hle).
  exists lq. split; [assumption|].
  unfold too_deep. apply andb_false_iff. right. apply Z.ltb_ge. assumption.
Qed.

(** C9.  [order] is what the walk from [root] visits.  With a depth limit,
    at the first visited leaf deeper than the limit the serializer writes
    the line of that leaf, then the marker, and stops: the marker is the
    last line.  Without a limit the lines are exactly those of the visited
    leaves, which are the nodes of the tree, and no marker is added. *)
Theorem Serialize_truncation {T} (show : T -> string)
    (h : list (BinaryLeaf T)) (root : ptr) (pretty : bool)
    (order : list ptr) :
  depths_fit h ->
  visit_order h true root = Some order ->
  (forall limit before p l after,
      (0 <= limit < 65536)%Z ->
      order = before ++ p :: after ->
      Forall (fun q => exists lq, h !! q = Some lq /\ (mDepth lq <= limit)%Z)
        before ->
      h !! p = Some l -> (limit < mDepth l)%Z ->
      Serialize show h root limit pretty
      = Some (map (line_of show h pretty) before
              ++ [leaf_line show pretty l; truncation_marker]))
  /\ Serialize show h root (-1) pretty
     = Some (map (line_of show h pretty) order)
  /\ (forall t, root_of t = Some root -> repr h t -> NoDup (nodes t) ->
      order ≡ₚ nodes t).
Proof.
  intros Hfit Hord. split; [|split].
  - intros limit before p l after Hlimit -> Hbefore Hp Hdeep.
    unfold Serialize. rewrite uint16_t_small by assumption.
    rewrite (Walk_const_run h _ true root _ _ Hord).
    rewrite (run_Serialize_stop show h limit pretty before p l after);
      [reflexivity | apply within_limit_passes; assumption | assumption |].
    unfold too_deep. apply andb_true_iff. split.
    + apply negb_true_iff, Z.eqb_neq. lia.
    + apply Z.ltb_lt. assumption.
  - unfold Serialize. rewrite uint16_t_of_default.
    rewrite (Walk_const_run h _ true root _ _ Hord).
    rewrite run_Serialize_all; [reflexivity|].
    apply no_limit_passes; [assumption|].
    eapply visit_order_cells; eassumption.
  - intros t Hroot Hrepr Hnd.
    destruct t as [|p r l]; [discriminate|].
    injection Hroot as ->.
    destruct (visit_order_tree h root r l Hrepr Hnd) as (order' & Hord' & Hperm).
    rewrite Hord in Hord'. injection Hord' as <-. exact Hperm.
Qed.

Lemma Serialize_truncation_witness :
  Serialize show_int tree_1_2_3_4 0 0 false
  = Some ["1"; "2"; "..."]%string
  /\ Serialize show_int tree_1_2_3_4 0 (-1) false
     = Some ["1"; "2"; "3"; "4"]%string.
Proof.
  assert (Hfit : depths_fit tree_1_2_3_4).
  { repeat constructor; simpl; lia. }
  destruct (Serialize_truncation show_int tree_1_2_3_4 0 false [0; 1; 2; 3]
              Hfit eq_refl) as (Hstop & Hall & _).
  split.
  - apply (Hstop 0%Z [0] 1 (mkLeaf 2%Z 1%Z TreeDirection.RIGHT (Some 3) None)
             [2; 3]); [lia | reflexivity | | reflexivity | simpl; lia].
    repeat constructor. eexists. split; [reflexivity | simpl; lia].
  - exact Hall.
Defined.

(** ** C1: the round trip *)

Lemma nonblank_nonempty (s : string) : s <> EmptyString -> nonblank s = true.
Proof. destruct s; [congruence | reflexivity]. Qed.

Lemma filter_nonblank_all (ls : list string) :
  Forall (fun s => s <> EmptyString) ls -> List.filter nonblank ls = ls.
Proof.
  induction 1 as [|s ls Hs _ IH]; simpl; [reflexivity|].
  rewrite (nonblank_nonempty s Hs), IH. reflexivity.
Qed.

Lemma read_values_shown {T} (show : T -> string) (parse : deserializer_t T)
    (vs : list T) :
  Forall (fun v => parse (show v) = Some v /\ show v <> EmptyString) vs ->
  read_values parse (map show vs) = Some vs.
Proof.
  intros Hvs. unfold read_values.
  rewrite filter_nonblank_all.
  - change (map show vs) with (show <$> vs).
    apply mapM_fmap_Forall_Some.
    eapply Forall_impl; [exact Hvs|]. intros v [Hv _]. exact Hv.
  - apply Forall_forall. intros s Hs.
    apply list_elem_of_In, in_map_iff in Hs as (v & <- & Hv).
    rewrite Forall_forall in Hvs. apply Hvs, list_elem_of_In, Hv.
Qed.

Lemma lines_built {T} (show : T -> string) (h0 : list (BinaryLeaf T))
    (vs : list T) :
  map (line_of show (h0 ++ filled (length h0) vs) false)
    (seq (length h0) (length vs))
  = map show vs.
Proof.
  change (map show vs) with (show <$> vs).
  change (map ?f ?l) with (f <$> l).
  apply list_eq. intros i. rewrite !list_lookup_fmap.
  destruct (decide (i < length vs)) as [Hi|Hi].
  - rewrite lookup_seq_lt by assumption.
    destruct (lookup_built_cell h0 vs i Hi) as (v & Hv & Hcell).
    rewrite Hv. simpl. unfold line_of. rewrite Hcell. reflexivity.
  - rewrite lookup_seq_ge by lia.
    rewrite (lookup_ge_None_2 vs i) by lia. reflexivity.
Qed.

Lemma Serialize_built {T} (show : T -> string) (h0 : list (BinaryLeaf T))
    out0 (vs : list T) :
  vs <> [] ->
  Serialize show (cells (built h0 out0 vs)) (length h0) (-1) false
  = Some (map show vs).
Proof.
  intros Hvs. unfold Serialize, built. simpl cells.
  assert (Hpos : 0 < length vs) by (destruct vs; [congruence | simpl; lia]).
  rewrite (Walk_const_run _ _ true _ _ _ (visit_order_built h0 vs Hpos)).
  rewrite uint16_t_of_default, run_Serialize_all.
  - simpl app. rewrite lines_built. reflexivity.
  - apply Forall_forall. intros p Hp.
    apply elem_of_seq in Hp.
    destruct (lookup_built_cell h0 vs (p - length h0)) as (v & Hv & Hcell);
      [lia|].
    replace (length h0 + (p - length h0)) with p in Hcell by lia.
    eexists. split; [exact Hcell|].
    unfold too_deep, placed, placed_depth, uint16_t. simpl.
    apply Z.ltb_ge.
    pose proof (Z.mod_pos_bound (Z.log2 (Z.of_nat (p - length h0) + 1)) 65536).
    lia.
Qed.

(** C1, as stated, fails: a root whose only child is a left child is
    written as the lines 1, 2, and reading them back hangs the second leaf
    on the right of the root, with direction RIGHT: the shape and a
    direction have changed. *)
Lemma roundtrip_moves_lone_left_child :
  Serialize show_int tree_left_only 0 (-1) false = Some ["1"; "2"]%string
  /\ Deserialize stoi ["1"; "2"]%string (mkStore [] None)
     = Some (mkStore tree_right_only (Some 0))
  /\ (mRight <$> tree_left_only !! 0) = Some None
  /\ (mRight <$> tree_right_only !! 0) = Some (Some 1)
  /\ (mLeft <$> tree_left_only !! 0) = Some (Some 1)
  /\ (mLeft <$> tree_right_only !! 0) = Some None
  /\ (mDirection <$> tree_left_only !! 1) = Some TreeDirection.LEFT
  /\ (mDirection <$> tree_right_only !! 1) = Some TreeDirection.RIGHT.
Proof.
  split; [vm_compute; reflexivity|].
  split; [vm_compute; reflexivity|].
  repeat split.
Qed.

(** Reading back what was written: the lines, when none of them holds a
    new-line character, and one empty line after the last [std::endl]. *)
Lemma getlines_line (line text : string) :
  has_newline line = false ->
  getlines (line ++ String newline text) = line :: getlines text.
Proof.
  induction line as [|c line IH]; intros Hline.
  - reflexivity.
  - simpl in Hline. apply orb_false_iff in Hline as [Hc Hline].
    simpl. rewrite Hc, (IH Hline). reflexivity.
Qed.

Lemma getlines_written (lines : list string) :
  Forall (fun line => has_newline line = false) lines ->
  getlines (written lines) = lines ++ [EmptyString].
Proof.
  induction 1 as [|line lines Hline _ IH]; [reflexivity|].
  simpl written. rewrite (getlines_line _ _ Hline), IH. reflexivity.
Qed.

Lemma read_values_blank_end {T} (valueDeserializer : deserializer_t T)
    (lines : list string) :
  read_values valueDeserializer (lines ++ [EmptyString])
  = read_values valueDeserializer lines.
Proof.
  unfold read_values. rewrite List.filter_app. simpl.
  rewrite app_nil_r. reflexivity.
Qed.

(** The text of a value must not hold a new-line character: [std::stoi]
    reads 5 from the two-line text of 5 below, but the file is read back as
    the two lines 5 and 7, which make a tree of two leaves. *)
Lemma roundtrip_splits_a_text_with_newline :
  let show := fun z => (show_int z ++ String newline "7")%string in
  stoi (show 5%Z) = Some 5%Z
  /\ Deserialize stoi ["5"]%string (mkStore [] None)
     = Some (mkStore [BinaryLeaf_new 5%Z] (Some 0))
  /\ Serialize show [BinaryLeaf_new 5%Z] 0 (-1) false = Some [show 5%Z]
  /\ getlines (written [show 5%Z]) = ["5"; "7"; ""]%string
  /\ Deserialize stoi (getlines (written [show 5%Z])) (mkStore [] None)
     = Some (mkStore
               [ mkLeaf 5%Z 0%Z TreeDirection.ROOT (Some 1) None;
                 mkLeaf 7%Z 1%Z TreeDirection.RIGHT None None ] (Some 0)).
Proof. repeat split; vm_compute; reflexivity. Qed.

(** C1, amended.  Let [st] be the store in which [Deserialize] has built a
    tree (at least one leaf) from some lines, and let the value of every
    leaf of the tree have a text that is not empty, holds no new-line
    character, and that the parser reads back exactly.  Then the plain
    serialization of the tree succeeds, and deserializing the text it has
    written, from the same initial store, rebuilds [st]: the same cells,
    hence the same shape, values, depths and directions. *)
Theorem roundtrip_of_deserialized_tree {T} (show : T -> string)
    (valueDeserializer : deserializer_t T) (h0 : list (BinaryLeaf T))
    (out0 : option ptr) (stream : list string) (st : store T) :
  Deserialize valueDeserializer stream (mkStore h0 out0) = Some st ->
  length h0 < length (cells st) ->
  (forall i l,
      length h0 <= i -> cells st !! i = Some l ->
      valueDeserializer (show (mValue l)) = Some (mValue l)
      /\ show (mValue l) <> EmptyString
      /\ has_newline (show (mValue l)) = false) ->
  caller_var st = Some (length h0)
  /\ exists lines,
       Serialize show (cells st) (length h0) (-1) false = Some lines
       /\ Deserialize valueDeserializer (getlines (written lines))
            (mkStore h0 out0)
          = Some st.
Proof.
  intros Hst Hlen Hinv. rewrite Deserialize_built in Hst.
  destruct (read_values valueDeserializer stream) as [ws|]; [|discriminate].
  simpl in Hst. injection Hst as <-.
  assert (Hws : ws <> []).
  { intros ->. unfold built in Hlen. simpl in Hlen.
    rewrite app_nil_r in Hlen. lia. }
  assert (Hall : Forall (fun v => valueDeserializer (show v) = Some v
                                  /\ show v <> EmptyString
                                  /\ has_newline (show v) = false) ws).
  { apply Forall_lookup. intros i v Hv.
    destruct (lookup_built_cell h0 ws i) as (v' & Hv' & Hcell).
    { eapply lookup_lt_Some; eassumption. }
    rewrite Hv in Hv'. injection Hv' as <-.
    apply (Hinv (length h0 + i) _ ltac:(lia) Hcell). }
  split; [destruct ws; [congruence | reflexivity]|].
  exists (map show ws). split; [apply Serialize_built; assumption|].
  rewrite getlines_written.
  - rewrite Deserialize_built, read_values_blank_end, read_values_shown;
      [reflexivity|].
    eapply Forall_impl; [exact Hall|]. intros v (Hv & Hne & _). auto.
  - apply Forall_forall. intros line Hline.
    apply list_elem_of_In, in_map_iff in Hline as (v & <- & Hv).
    rewrite Forall_forall in Hall.
    apply (Hall v), list_elem_of_In, Hv.
Qed.

Lemma roundtrip_of_deserialized_tree_witness :
  exists lines,
    Serialize show_int tree_5_3_8 0 (-1) false = Some lines
    /\ Deserialize stoi (getlines (written lines)) (mkStore [] None)
       = Some (mkStore tree_5_3_8 (Some 0)).
Proof.
  refine (proj2 (roundtrip_of_deserialized_tree show_int stoi [] None
            ["5"; ""; "3"; "8"]%string (mkStore tree_5_3_8 (Some 0))
            _ _ _)).
  - vm_compute. reflexivity.
  - simpl. lia.
  - intros [|[|[|i]]] l _ Hl; simpl in Hl; try discriminate;
      injection Hl as <-; vm_compute;
      (split; [reflexivity | split; [discriminate | reflexivity]]).
Defined.

(** The trees of the generator have the same layout and hold values whose
    decimal text [std::stoi] reads back: they make the round trip as well. *)

Lemma reads_back_small :
  forallb reads_back (List.map (fun k => (Z.of_nat k - 254)%Z) (seq 0 509))
  = true.
Proof. vm_compute. reflexivity. Qed.

Lemma stoi_show_int_small (v : Z) :
  (-255 < v < 255)%Z ->
  stoi (show_int v) = Some v /\ show_int v <> EmptyString.
Proof.
  intros Hv. pose proof reads_back_small as Hall.
  rewrite forallb_forall in Hall.
  specialize (Hall v). unfold reads_back in Hall.
  destruct (stoi (show_int v)) as [w|].
  - assert (Hin : In v (List.map (fun k => (Z.of_nat k - 254)%Z) (seq 0 509))).
    { apply in_map_iff. exists (Z.to_nat (v + 254)). split; [lia|].
      apply in_seq. lia. }
    apply Hall, andb_true_iff in Hin as [Heq Hne].
    apply Z.eqb_eq in Heq as ->. split; [reflexivity|].
    intros Hempty. rewrite Hempty in Hne. discriminate.
  - assert (Hin : In v (List.map (fun k => (Z.of_nat k - 254)%Z) (seq 0 509))).
    { apply in_map_iff. exists (Z.to_nat (v + 254)). split; [lia|].
      apply in_seq. lia. }
    apply Hall in Hin. discriminate.
Qed.

Lemma roundtrip_of_generated_tree (rand : nat -> Z)
    (h0 : list (BinaryLeaf Z)) (maxLeaves : Z) (st : store Z) (calls : nat) :
  GenerateTree rand h0 maxLeaves = Some (st, calls) ->
  exists lines,
    Serialize show_int (cells st) (length h0) (-1) false = Some lines
    /\ Deserialize stoi lines (mkStore h0 None) = Some st.
Proof.
  rewrite GenerateTree_built. intros Hst. injection Hst as <- _.
  set (n := Z.to_nat (Z.max 1 maxLeaves)).
  exists (map show_int (drawn rand n)). split.
  - apply Serialize_built.
    intros Hnil. pose proof (length_drawn rand n) as Hlen.
    rewrite Hnil in Hlen. simpl in Hlen. unfold n in Hlen. lia.
  - rewrite Deserialize_built, read_values_shown; [reflexivity|].
    apply Forall_forall. intros v Hv.
    apply list_elem_of_lookup in Hv as [i Hi].
    unfold drawn in Hi. rewrite list_lookup_fmap in Hi.
    destruct (seq 0 n !! i) as [k|]; [|discriminate].
    injection Hi as <-. apply stoi_show_int_small.
    pose proof (Z.rem_bound_abs (rand k) 255 ltac:(lia)). lia.
Qed.

(** ** C5, C8, C10: what the builders produce *)

Lemma lookup_built_inv {T} (h0 : list (BinaryLeaf T)) (vs : list T) p np :
  (h0 ++ filled (length h0) vs) !! p = Some np ->
  length h0 <= p ->
  exists i v,
    p = length h0 + i /\ i < length vs /\ vs !! i = Some v
    /\ np = placed (length h0) (length vs) i v.
Proof.
  intros Hp Hle. rewrite lookup_app_r in Hp by assumption.
  rewrite lookup_filled in Hp.
  destruct (vs !! (p - length h0)) as [v|] eqn:Hv; [|discriminate].
  injection Hp as <-. exists (p - length h0), v.
  repeat split; [lia | eapply lookup_lt_Some; eassumption | assumption].
Qed.

Lemma placed_depth_small (i : nat) :
  (Z.of_nat i + 1 <= INT_MAX)%Z ->
  placed_depth i = Z.log2 (Z.of_nat i + 1) /\ (0 <= placed_depth i < 31)%Z.
Proof.
  unfold INT_MAX. intros Hi.
  assert (Hlog : (0 <= Z.log2 (Z.of_nat i + 1) < 31)%Z).
  { split; [apply Z.log2_nonneg|].
    apply Z.log2_lt_pow2; [lia|]. change (2 ^ 31)%Z with 2147483648%Z. lia. }
  unfold placed_depth, uint16_t. rewrite Z.mod_small by lia. auto.
Qed.

Lemma drawn_nonempty rand n : 0 < n -> drawn rand n <> [].
Proof.
  intros Hn Hnil. pose proof (length_drawn rand n) as Hlen.
  rewrite Hnil in Hlen. simpl in Hlen. lia.
Qed.

Lemma lookup_drawn rand n i v :
  drawn rand n !! i = Some v -> v = Z.rem (rand i) 255.
Proof.
  unfold drawn. rewrite list_lookup_fmap. intros Hv.
  destruct (seq 0 n !! i) as [k|] eqn:Hk; [|discriminate].
  apply lookup_seq in Hk as [-> _]. injection Hv as <-. reflexivity.
Qed.

(** C5.  For a budget that fits an [int], [GenerateTree] returns a tree
    whose root is the first new cell, at depth 0; the walk from the root
    visits [n] leaves, with 1 <= n <= maxLeaves when maxLeaves >= 1 and
    n = 1 when maxLeaves <= 0; the depth of every child is the depth of its
    parent plus one. *)
Theorem GenerateTree_size_and_depths (rand : nat -> Z)
    (h0 : list (BinaryLeaf Z)) (maxLeaves : Z) :
  (maxLeaves <= INT_MAX)%Z ->
  exists st calls n,
    GenerateTree rand h0 maxLeaves = Some (st, calls)
    /\ caller_var st = Some (length h0)
    /\ length (cells st) = length h0 + n
    /\ visit_order (cells st) true (length h0) = Some (seq (length h0) n)
    /\ ((1 <= maxLeaves)%Z -> 1 <= n /\ (Z.of_nat n <= maxLeaves)%Z)
    /\ ((maxLeaves <= 0)%Z -> n = 1)
    /\ (exists root, cells st !! length h0 = Some root /\ mDepth root = 0%Z)
    /\ (forall p c np nc,
          length h0 <= p -> cells st !! p = Some np ->
          mRight np = Some c \/ mLeft np = Some c ->
          cells st !! c = Some nc ->
          mDepth nc = (mDepth np + 1)%Z).
Proof.
  intros Hmax. set (n := Z.to_nat (Z.max 1 maxLeaves)).
  assert (Hn : 0 < n) by (unfold n; lia).
  exists (built h0 None (drawn rand n)), n, n.
  split; [apply GenerateTree_built|].
  split. { unfold built. simpl.
           destruct (drawn rand n) eqn:Hd; [|reflexivity].
           exfalso. eapply drawn_nonempty; eassumption. }
  split. { unfold built. simpl.
           rewrite length_app, length_filled, length_drawn. reflexivity. }
  split. { unfold built. simpl.
           rewrite <- (length_drawn rand n) at 2.
           apply visit_order_built. rewrite length_drawn. assumption. }
  split; [unfold n; lia|]. split; [unfold n; lia|].
  split.
  { destruct (lookup_built_cell h0 (drawn rand n) 0) as (v & _ & Hcell).
    { rewrite length_drawn. assumption. }
    rewrite Nat.add_0_r in Hcell. unfold built. simpl.
    eexists. split; [exact Hcell | reflexivity]. }
  intros p c np nc Hp Hnp Hchild Hnc. unfold built in Hnp, Hnc. simpl in Hnp, Hnc.
  apply lookup_built_inv in Hnp as (i & v & -> & Hi & _ & ->); [|assumption].
  rewrite length_drawn in Hi.
  assert (Hbound : (Z.of_nat (2 * i + 2) + 1 <= INT_MAX)%Z \/ ~ 2 * i + 2 < n).
  { unfold INT_MAX in *. unfold n in *. lia. }
  simpl in Hchild. unfold child_ptr in Hchild. rewrite length_drawn in Hchild.
  destruct (placed_depth_small i) as [_ Hsmall];
    [unfold INT_MAX in *; unfold n in *; lia|].
  destruct Hchild as [Hc|Hc]; case_decide; try discriminate;
    injection Hc as <-;
    apply lookup_built_inv in Hnc as (j & w & Hj & _ & _ & ->); try lia;
    simpl.
  - replace j with (2 * i + 1) by lia.
    rewrite <- placed_depth_right. unfold uint16_t.
    apply Z.mod_small. lia.
  - replace j with (2 * i + 2) by lia.
    rewrite <- placed_depth_left. unfold uint16_t.
    apply Z.mod_small. lia.
Qed.

Lemma GenerateTree_size_and_depths_witness :
  exists st calls n,
    GenerateTree (fun k => Z.of_nat (1000 + 300 * k)) [] 4 = Some (st, calls)
    /\ caller_var st = Some 0
    /\ length (cells st) = 0 + n
    /\ visit_order (cells st) true 0 = Some (seq 0 n)
    /\ ((1 <= 4)%Z -> 1 <= n /\ (Z.of_nat n <= 4)%Z)
    /\ ((4 <= 0)%Z -> n = 1)
    /\ (exists root, cells st !! 0 = Some root /\ mDepth root = 0%Z)
    /\ (forall p c np nc,
          0 <= p -> cells st !! p = Some np ->
          mRight np = Some c \/ mLeft np = Some c ->
          cells st !! c = Some nc ->
          mDepth nc = (mDepth np + 1)%Z).
Proof.
  apply (GenerateTree_size_and_depths (fun k => Z.of_nat (1000 + 300 * k)) [] 4).
  unfold INT_MAX. lia.
Defined.

(** C8.  With a random source that returns non-negative numbers, as
    [rand()] does, every generated leaf holds a value between 0 and 255, the
    value of the [i]-th leaf is drawn by the [i]-th call, and there are as
    many calls as generated leaves. *)
Theorem GenerateTree_values (rand : nat -> Z) (h0 : list (BinaryLeaf Z))
    (maxLeaves : Z) :
  (forall k, (0 <= rand k)%Z) ->
  exists st calls,
    GenerateTree rand h0 maxLeaves = Some (st, calls)
    /\ length (cells st) = length h0 + calls
    /\ (forall i l,
          cells st !! (length h0 + i) = Some l ->
          mValue l = Z.rem (rand i) 255 /\ (0 <= mValue l <= 255)%Z).
Proof.
  intros Hrand. set (n := Z.to_nat (Z.max 1 maxLeaves)).
  exists (built h0 None (drawn rand n)), n.
  split; [apply GenerateTree_built|].
  split. { unfold built. simpl.
           rewrite length_app, length_filled, length_drawn. reflexivity. }
  intros i l Hl. unfold built in Hl. simpl in Hl.
  apply lookup_built_inv in Hl as (j & v & Hj & _ & Hv & ->); [|lia].
  replace j with i in * by lia. simpl.
  apply lookup_drawn in Hv as ->. split; [reflexivity|].
  pose proof (Z.rem_bound_pos (rand i) 255 (Hrand i) ltac:(lia)). lia.
Qed.

Lemma GenerateTree_values_witness :
  exists st calls,
    GenerateTree (fun k => Z.of_nat (1000 + 300 * k)) [] 4 = Some (st, calls)
    /\ length (cells st) = 0 + calls
    /\ (forall i l,
          cells st !! (0 + i) = Some l ->
          mValue l = Z.rem (Z.of_nat (1000 + 300 * i)) 255
          /\ (0 <= mValue l <= 255)%Z).
Proof.
  apply (GenerateTree_values (fun k => Z.of_nat (1000 + 300 * k)) [] 4).
  intros k. lia.
Defined.

(** C10.  In the trees that [Deserialize] and [GenerateTree] build, a leaf
    that has a left child has a right child. *)
Theorem built_left_child_has_right_sibling :
  (forall T (valueDeserializer : deserializer_t T) stream
          (h0 : list (BinaryLeaf T)) out0 st i l,
      Deserialize valueDeserializer stream (mkStore h0 out0) = Some st ->
      length h0 <= i -> cells st !! i = Some l ->
      is_Some (mLeft l) -> is_Some (mRight l))
  /\ (forall rand (h0 : list (BinaryLeaf Z)) maxLeaves st calls i l,
      GenerateTree rand h0 maxLeaves = Some (st, calls) ->
      length h0 <= i -> cells st !! i = Some l ->
      is_Some (mLeft l) -> is_Some (mRight l)).
Proof.
  assert (Hbuilt : forall T (h0 : list (BinaryLeaf T)) out0 vs i l,
            length h0 <= i -> cells (built h0 out0 vs) !! i = Some l ->
            is_Some (mLeft l) -> is_Some (mRight l)).
  { intros T h0 out0 vs i l Hi Hl [c Hc]. unfold built in Hl. simpl in Hl.
    apply lookup_built_inv in Hl as (j & v & _ & _ & _ & ->); [|assumption].
    simpl in *. unfold child_ptr in *.
    case_decide; [|discriminate]. case_decide; [eauto | lia]. }
  split.
  - intros T parse stream h0 out0 st i l Hst.
    rewrite Deserialize_built in Hst.
    destruct (read_values parse stream) as [ws|]; [|discriminate].
    injection Hst as <-. apply Hbuilt.
  - intros rand h0 maxLeaves st calls i l Hst.
    rewrite GenerateTree_built in Hst. injection Hst as <- _. apply Hbuilt.
Qed.

Lemma built_left_child_has_right_sibling_witness :
  is_Some (mRight (mkLeaf 5%Z 0%Z TreeDirection.ROOT (Some 1) (Some 2))).
Proof.
  apply (proj1 built_left_child_has_right_sibling Z stoi
           ["5"; "3"; "8"]%string [] None (mkStore tree_5_3_8 (Some 0)) 0).
  - vm_compute. reflexivity.
  - simpl. lia.
  - reflexivity.
  - simpl. eauto.
Defined.

(** * Further properties of the code *)

(** ** Attaching and writing leaves *)

(** [SetRightChild] and [SetLeftChild] on two distinct cells: the parent
    points to the child, the child gets the parent's depth plus one (as a
    [uint16_t]) and its direction; the parent's other fields, the child's
    value and own children, and every other cell are unchanged.  In
    particular the depths below the child are not recomputed. *)
Theorem SetChild_effect {T} (h : list (BinaryLeaf T)) (this leaf : ptr)
    (t c : BinaryLeaf T) :
  h !! this = Some t -> h !! leaf = Some c -> this <> leaf ->
  (SetRightChild this leaf h !! this = Some (set_mRight (Some leaf) t)
   /\ SetRightChild this leaf h !! leaf
      = Some (set_placement (uint16_t (mDepth t + 1)) TreeDirection.RIGHT c)
   /\ (forall q, q <> this -> q <> leaf ->
       SetRightChild this leaf h !! q = h !! q)
   /\ length (SetRightChild this leaf h) = length h)
  /\ (SetLeftChild this leaf h !! this = Some (set_mLeft (Some leaf) t)
      /\ SetLeftChild this leaf h !! leaf
         = Some (set_placement (uint16_t (mDepth t + 1)) TreeDirection.LEFT c)
      /\ (forall q, q <> this -> q <> leaf ->
          SetLeftChild this leaf h !! q = h !! q)
      /\ length (SetLeftChild this leaf h) = length h).
Proof.
  intros Ht Hc Hne. unfold SetRightChild, SetLeftChild.
  rewrite !list_lookup_alter_eq, Ht. simpl.
  split; repeat split.
  - rewrite list_lookup_alter_ne by congruence.
    rewrite list_lookup_alter_eq, Ht. reflexivity.
  - rewrite list_lookup_alter_eq, list_lookup_alter_ne by assumption.
    rewrite Hc. reflexivity.
  - intros q Hq1 Hq2. rewrite !list_lookup_alter_ne by congruence. reflexivity.
  - rewrite !length_alter. reflexivity.
  - rewrite list_lookup_alter_ne by congruence.
    rewrite list_lookup_alter_eq, Ht. reflexivity.
  - rewrite list_lookup_alter_eq, list_lookup_alter_ne by assumption.
    rewrite Hc. reflexivity.
  - intros q Hq1 Hq2. rewrite !list_lookup_alter_ne by congruence. reflexivity.
  - rewrite !length_alter. reflexivity.
Qed.

Lemma SetChild_effect_witness :
  SetRightChild 2 1 tree_5_3_8 !! 1
  = Some (mkLeaf 3%Z 2%Z TreeDirection.RIGHT None None).
Proof.
  refine (proj1 (proj2 (proj1 (SetChild_effect tree_5_3_8 2 1
            (mkLeaf 8%Z 1%Z TreeDirection.LEFT None None)
            (mkLeaf 3%Z 1%Z TreeDirection.RIGHT None None)
            eq_refl eq_refl _)))).
  lia.
Defined.

(** A walk reads only the links of the cells. *)
Lemma Walk_loop_links {T} (h h' : list (BinaryLeaf T)) :
  (forall p, (fun n => (mRight n, mLeft n)) <$> h !! p
             = (fun n => (mRight n, mLeft n)) <$> h' !! p) ->
  forall fuel collected seen,
    Walk_loop (fun _ => h) fuel collect collected seen
    = Walk_loop (fun _ => h') fuel collect collected seen.
Proof.
  intros Hlinks. induction fuel as [|fuel IH]; intros collected seen.
  - destruct collected; reflexivity.
  - destruct collected as [|leaf rest]; [reflexivity|].
    simpl. specialize (Hlinks leaf).
    destruct (h !! leaf) as [n|], (h' !! leaf) as [n'|]; simpl in Hlinks;
      try discriminate; [|reflexivity].
    injection Hlinks as -> ->. apply IH.
Qed.

(** [SetValue] writes the value of one leaf and nothing else: [GetValue]
    reads it back, the other cells, the depth and the links are unchanged,
    and every walk visits the same leaves in the same order. *)
Theorem SetValue_effect {T} (h : list (BinaryLeaf T)) (this : ptr)
    (value : T) (t : BinaryLeaf T) :
  h !! this = Some t ->
  GetValue (SetValue this value h) this = Some value
  /\ GetDepth (SetValue this value h) this = Some (mDepth t)
  /\ GetRightChild (SetValue this value h) this = Some (mRight t)
  /\ GetLeftChild (SetValue this value h) this = Some (mLeft t)
  /\ (forall q, q <> this -> SetValue this value h !! q = h !! q)
  /\ (forall includeSelf start,
        visit_order (SetValue this value h) includeSelf start
        = visit_order h includeSelf start).
Proof.
  intros Ht.
  unfold GetValue, GetDepth, GetRightChild, GetLeftChild, SetValue.
  rewrite !list_lookup_alter_eq, Ht. simpl.
  repeat split.
  - intros q Hq. apply list_lookup_alter_ne. congruence.
  - intros includeSelf start.
    assert (Hlinks : forall p,
              (fun n => (mRight n, mLeft n)) <$> alter (set_mValue value) this h !! p
              = (fun n => (mRight n, mLeft n)) <$> h !! p).
    { intros p. destruct (decide (p = this)) as [->|Hp].
      - rewrite list_lookup_alter_eq, Ht. reflexivity.
      - rewrite list_lookup_alter_ne by congruence. reflexivity. }
    unfold visit_order, Walk_const, Walk. rewrite length_alter.
    destruct includeSelf.
    + apply Walk_loop_links. assumption.
    + pose proof (Hlinks start) as Hs.
      destruct (alter (set_mValue value) this h !! start) as [n|],
               (h !! start) as [n'|]; simpl in Hs; try discriminate;
        [|reflexivity].
      injection Hs as -> ->. apply Walk_loop_links. assumption.
Qed.

Lemma SetValue_effect_witness :
  GetValue (SetValue 1 42%Z tree_5_3_8) 1 = Some 42%Z.
Proof.
  refine (proj1 (SetValue_effect tree_5_3_8 1 42%Z
            (mkLeaf 3%Z 1%Z TreeDirection.RIGHT None None) eq_refl)).
Defined.

(** ** The walk is breadth-first *)

Lemma roots_level_0 (ts : list tree) : ts ≫= level 0 = omap root_of ts.
Proof.
  induction ts as [|[|p r l] ts IH]; [reflexivity | exact IH |].
  rewrite bind_cons, IH. reflexivity.
Qed.

Lemma level_S_kids (d : nat) (ts : list tree) :
  ts ≫= level (S d) = kids ts ≫= level d.
Proof.
  unfold kids. induction ts as [|[|p r l] ts IH]; [reflexivity | exact IH |].
  rewrite !bind_cons, bind_app, IH. simpl.
  rewrite app_nil_r, <- app_assoc. reflexivity.
Qed.

Lemma nodes_roots_kids (ts : list tree) :
  length (ts ≫= nodes)
  = length (omap root_of ts) + length (kids ts ≫= nodes).
Proof.
  unfold kids. induction ts as [|[|p r l] ts IH]; [reflexivity | exact IH |].
  rewrite !bind_cons, bind_app. simpl.
  change (list_omap _ _ root_of ts) with (omap root_of ts).
  rewrite app_nil_r, !length_app, IH. lia.
Qed.

Lemma kids_repr {T} (h : list (BinaryLeaf T)) (ts : list tree) :
  Forall (repr h) ts -> Forall (repr h) (kids ts).
Proof.
  unfold kids. induction 1 as [|[|p r l] ts Ht _ IH]; [constructor | exact IH |].
  rewrite bind_cons. destruct Ht as (n & _ & _ & _ & Hr & Hl).
  simpl. repeat constructor; assumption.
Qed.

Lemma kids_height (H : nat) (ts : list tree) :
  Forall (fun t => height t <= S H) ts ->
  Forall (fun t => height t <= H) (kids ts).
Proof.
  unfold kids. induction 1 as [|[|p r l] ts Ht _ IH]; [constructor | exact IH |].
  rewrite bind_cons. simpl in Ht. simpl. repeat constructor; try lia.
  exact IH.
Qed.

Lemma roots_flat (ts : list tree) :
  Forall (fun t => height t <= 0) ts -> omap root_of ts = [].
Proof.
  induction 1 as [|[|p r l] ts Ht _ IH]; [reflexivity | exact IH |].
  simpl in Ht. lia.
Qed.

Lemma Walk_loop_done {T} (h : list (BinaryLeaf T)) fuel seen :
  Walk_loop (fun _ => h) fuel collect [] seen = Some seen.
Proof. destruct fuel; reflexivity. Qed.

(** The roots of the forest at the head of the queue are visited in turn,
    and their subtrees join the queue behind what was already there. *)
Lemma Walk_loop_roots {T} (h : list (BinaryLeaf T)) (a : list tree) :
  Forall (repr h) a ->
  forall fuel behind seen,
    Walk_loop (fun _ => h) (length (omap root_of a) + fuel) collect
      (omap root_of a ++ behind) seen
    = Walk_loop (fun _ => h) fuel collect
        (behind ++ omap root_of (kids a)) (seen ++ omap root_of a).
Proof.
  unfold kids.
  induction 1 as [|[|p r l] a Ht _ IH]; intros fuel behind seen.
  - simpl. rewrite !app_nil_r. reflexivity.
  - apply IH.
  - destruct Ht as (n & Hn & Hr & Hl & _ & _).
    change (omap root_of (Node p r l :: a)) with (p :: omap root_of a).
    simpl length. simpl app at 1. rewrite Nat.add_succ_l.
    rewrite (Walk_loop_collect_cons h _ _ _ _ n Hn).
    rewrite !push_child_app, Hr, Hl, <- !app_assoc.
    rewrite <- roots_pair.
    rewrite IH. rewrite bind_cons, omap_app, <- !app_assoc.
    reflexivity.
Qed.

Lemma flat_map_shift {A} (f : nat -> list A) (n : nat) :
  flat_map f (seq 1 n) = flat_map (fun d => f (S d)) (seq 0 n).
Proof.
  rewrite <- seq_shift. induction (seq 0 n) as [|d ds IH]; [reflexivity|].
  simpl. rewrite IH. reflexivity.
Qed.

Lemma Walk_loop_levels {T} (h : list (BinaryLeaf T)) :
  forall H ts fuel seen,
    Forall (repr h) ts ->
    Forall (fun t => height t <= H) ts ->
    length (ts ≫= nodes) <= fuel ->
    Walk_loop (fun _ => h) fuel collect (omap root_of ts) seen
    = Some (seen ++ flat_map (fun d => ts ≫= level d) (seq 0 H)).
Proof.
  induction H as [|H IH]; intros ts fuel seen Hrepr Hheight Hfuel.
  - rewrite roots_flat by assumption. simpl. rewrite app_nil_r.
    apply Walk_loop_done.
  - rewrite nodes_roots_kids in Hfuel.
    replace fuel
      with (length (omap root_of ts) + (fuel - length (omap root_of ts)))
      by lia.
    pose proof (Walk_loop_roots h ts Hrepr
                  (fuel - length (omap root_of ts)) [] seen) as Hstep.
    rewrite app_nil_r in Hstep. simpl app in Hstep. rewrite Hstep.
    rewrite (IH (kids ts)); [| apply kids_repr; assumption
                             | apply kids_height; assumption | lia].
    f_equal. rewrite <- app_assoc. f_equal.
    change (seq 0 (S H)) with (0 :: seq 1 H). simpl flat_map.
    rewrite roots_level_0. f_equal.
    rewrite flat_map_shift. apply flat_map_ext. intros d.
    symmetry. apply level_S_kids.
Qed.

(** The walk from the root of a tree of the arena ends and visits the nodes
    level by level, each level from right to left subtree: every node once.
    The walk that leaves the root out visits the levels of the two subtrees,
    those of the left subtree first. *)
Theorem Walk_breadth_first {T} (h : list (BinaryLeaf T)) (root : ptr)
    (r l : tree) :
  repr h (Node root r l) -> NoDup (nodes (Node root r l)) ->
  visit_order h true root = Some (level_order (Node root r l))
  /\ level_order (Node root r l) ≡ₚ nodes (Node root r l)
  /\ visit_order h false root
     = Some (flat_map (fun d => level d l ++ level d r)
               (seq 0 (Nat.max (height l) (height r)))).
Proof.
  intros Hrepr Hnd.
  pose proof (NoDup_cells_length h _ Hnd (repr_nodes_cells h _ Hrepr)) as Hlen.
  assert (Htrue : visit_order h true root = Some (level_order (Node root r l))).
  { unfold visit_order, Walk_const, Walk.
    change [root] with (omap root_of [Node root r l]).
    rewrite (Walk_loop_levels h (height (Node root r l)) [Node root r l]
               (length h) []).
    - f_equal. unfold level_order. rewrite app_nil_l. apply flat_map_ext.
      intros d. apply bind_singleton.
    - repeat constructor. exact Hrepr.
    - repeat constructor.
    - rewrite bind_singleton. exact Hlen. }
  split; [exact Htrue|]. split.
  - destruct (visit_order_tree h root r l Hrepr Hnd) as (order & Hord & Hperm).
    rewrite Htrue in Hord. injection Hord as <-. exact Hperm.
  - unfold visit_order, Walk_const, Walk.
    destruct Hrepr as (n & Hn & Hr & Hl & Hrr & Hrl). rewrite Hn.
    replace (push_child (mRight n) (push_child (mLeft n) []))
      with (omap root_of [l; r])
      by (rewrite Hr, Hl; destruct l, r; reflexivity).
    rewrite (Walk_loop_levels h (Nat.max (height l) (height r)) [l; r]
               (length h) []).
    + f_equal. rewrite app_nil_l. apply flat_map_ext. intros d.
      rewrite bind_cons, bind_singleton. reflexivity.
    + repeat constructor; assumption.
    + repeat constructor; lia.
    + rewrite bind_cons, bind_singleton, length_app.
      simpl in Hlen. rewrite length_app in Hlen. lia.
Qed.

Lemma Walk_breadth_first_witness :
  visit_order tree_1_2_3_4 true 0 = Some [0; 1; 2; 3].
Proof.
  refine (proj1 (Walk_breadth_first tree_1_2_3_4 0
            (Node 1 (Node 3 Nil Nil) Nil) (Node 2 Nil Nil) _ _)).
  - simpl. eexists. repeat split.
    + eexists. repeat split. eexists. repeat split.
    + eexists. repeat split.
  - apply (bool_decide_unpack _). reflexivity.
Defined.

(** ** Stopping a walk *)

Lemma run_logged {A} (walker : ptr -> A -> option (bool * A)) :
  forall order a log0 a' log,
    run_walker (logged walker) order (a, log0) = Some (a', log) ->
    exists called rest,
      log = log0 ++ called /\ order = called ++ rest
      /\ (rest = []
          \/ exists before p s,
               called = before ++ [p] /\ walker p s = Some (true, a')).
Proof.
  induction order as [|p order IH]; intros a log0 a' log Hrun.
  - injection Hrun as <- <-. exists [], []. rewrite app_nil_r. auto.
  - simpl in Hrun. destruct (walker p a) as [[[] a1]|] eqn:Hw;
      [| |discriminate].
    + injection Hrun as <- <-. exists [p], order.
      repeat split. right. exists [], p, a. auto.
    + apply IH in Hrun as (called & rest & -> & -> & Hrest).
      exists (p :: called), rest. rewrite <- app_assoc.
      repeat split. destruct Hrest as [->|(before & q & s & -> & Hq)]; [auto|].
      right. exists (p :: before), q, s. auto.
Qed.

(** Whatever the walker does, it is handed the leaves in the order of the
    unstopped walk, one after the other from the first; if it is not handed
    all of them, it answered "stop" on the last leaf it was handed. *)
Theorem Walk_stops_when_asked {T A} (h : list (BinaryLeaf T))
    (walker : ptr -> A -> option (bool * A)) (includeSelf : bool)
    (this : ptr) (order : list ptr) (a a' : A) (log : list ptr) :
  visit_order h includeSelf this = Some order ->
  Walk_const h (logged walker) includeSelf this (a, []) = Some (a', log) ->
  Walk_const h walker includeSelf this a = Some a'
  /\ exists rest,
       order = log ++ rest
       /\ (rest = []
           \/ exists before p s,
                log = before ++ [p] /\ walker p s = Some (true, a')).
Proof.
  intros Hord Hwalk.
  rewrite (Walk_const_run h _ _ _ _ _ Hord) in Hwalk.
  rewrite (Walk_const_run h _ _ _ _ _ Hord).
  split.
  - clear Hord. revert a Hwalk. generalize (@nil nat).
    induction order as [|p order IH]; intros log0 a Hrun.
    + injection Hrun as <- _. reflexivity.
    + simpl in Hrun |- *. destruct (walker p a) as [[[] a1]|];
        [| |discriminate].
      * injection Hrun as <- _. reflexivity.
      * eapply IH. exact Hrun.
  - apply run_logged in Hwalk as (called & rest & Hlog & -> & Hrest).
    simpl in Hlog. subst called. eauto.
Qed.

Lemma Walk_stops_when_asked_witness :
  Walk_const tree_1_2_3_4
    (fun (leaf : ptr) (n : nat) => Some (Nat.eqb leaf 1, S n)) true 0 0
  = Some 2.
Proof.
  refine (proj1 (Walk_stops_when_asked tree_1_2_3_4
            (fun (leaf : ptr) (n : nat) => Some (Nat.eqb leaf 1, S n))
            true 0 [0; 1; 2; 3] 0 2 [0; 1] eq_refl eq_refl)).
Defined.

(** ** Reading: blank lines, errors, layout *)

Lemma nonblank_true_iff (s : string) : nonblank s = true <-> s <> EmptyString.
Proof.
  split; [intros Hs -> ; discriminate | apply nonblank_nonempty].
Qed.

Lemma filter_nonblank_idem (stream : list string) :
  List.filter nonblank (List.filter nonblank stream)
  = List.filter nonblank stream.
Proof.
  induction stream as [|s stream IH]; [reflexivity|].
  simpl. destruct (nonblank s) eqn:Hs; simpl; rewrite ?Hs, IH; reflexivity.
Qed.

(** Blank lines are skipped: the result is that of the stream without
    them. *)
Theorem Deserialize_skips_blank_lines {T}
    (valueDeserializer : deserializer_t T) (stream : list string)
    (st0 : store T) :
  Deserialize valueDeserializer stream st0
  = Deserialize valueDeserializer (List.filter nonblank stream) st0.
Proof.
  destruct st0 as [h0 out0]. rewrite !Deserialize_built.
  unfold read_values. rewrite filter_nonblank_idem. reflexivity.
Qed.

(** [Deserialize] throws exactly when the value parser throws on some
    non-blank line of the stream, wherever that line stands. *)
Theorem Deserialize_throws_iff {T} (valueDeserializer : deserializer_t T)
    (stream : list string) (st0 : store T) :
  Deserialize valueDeserializer stream st0 = None
  <-> exists line,
        In line stream /\ line <> EmptyString
        /\ valueDeserializer line = None.
Proof.
  destruct st0 as [h0 out0]. rewrite Deserialize_built. unfold read_values.
  split.
  - intros Hnone.
    destruct (mapM valueDeserializer (List.filter nonblank stream)) eqn:Hm;
      [discriminate|].
    apply mapM_None, Exists_exists in Hm as (line & Hin & Hline).
    apply list_elem_of_In, filter_In in Hin as [Hin Hnb].
    exists line. rewrite <- nonblank_true_iff. auto.
  - intros (line & Hin & Hne & Hline).
    assert (Hm : mapM valueDeserializer (List.filter nonblank stream) = None).
    { apply mapM_None, Exists_exists. exists line. split; [|assumption].
      apply list_elem_of_In, filter_In. rewrite nonblank_true_iff. auto. }
    rewrite Hm. reflexivity.
Qed.

(** With nothing but blank lines to read (or nothing at all), [Deserialize]
    leaves the arena and the caller's pointer as they were. *)
Theorem Deserialize_nothing_to_read {T}
    (valueDeserializer : deserializer_t T) (stream : list string)
    (st0 : store T) :
  (forall line, In line stream -> line = EmptyString) ->
  Deserialize valueDeserializer stream st0 = Some st0.
Proof.
  intros Hblank. destruct st0 as [h0 out0].
  rewrite Deserialize_built. unfold read_values.
  assert (Hnil : List.filter nonblank stream = []).
  { induction stream as [|s stream IH]; [reflexivity|].
    simpl. rewrite (Hblank s) by (left; reflexivity). simpl.
    apply IH. intros line Hin. apply Hblank. right. assumption. }
  rewrite Hnil. simpl. unfold built. simpl. rewrite app_nil_r. reflexivity.
Qed.

Lemma Deserialize_nothing_to_read_witness :
  Deserialize stoi [""; ""]%string (mkStore tree_5_3_8 (Some 0))
  = Some (mkStore tree_5_3_8 (Some 0)).
Proof.
  apply (Deserialize_nothing_to_read stoi [""; ""]%string).
  intros line [<-|[<-|[]]]; reflexivity.
Defined.

Lemma placed_explicit {T} (b m i : nat) (v : T) :
  placed b m i v
  = mkLeaf v (uint16_t (Z.log2 (Z.of_nat i + 1)))
      (if decide (i = 0) then TreeDirection.ROOT
       else if Nat.odd i then TreeDirection.RIGHT else TreeDirection.LEFT)
      (if decide (2 * i + 1 < m) then Some (b + (2 * i + 1)) else None)
      (if decide (2 * i + 2 < m) then Some (b + (2 * i + 2)) else None).
Proof. destruct i; reflexivity. Qed.

(** What [Deserialize] builds when it returns: one new cell per non-blank
    line, in the order of the lines, on top of the cells that were there,
    which it does not touch.  The new cells form a binary heap: the [i]-th
    new leaf holds the [i]-th value, at depth log2(i+1) (as a [uint16_t]);
    its right child is the new leaf [2i+1] and its left child the new leaf
    [2i+2], when there are that many; leaf 0 is the root, odd leaves are
    RIGHT children and even ones LEFT children.  The caller's pointer is
    set to the first new cell, and the walk from there visits the new
    cells in the order of the lines. *)
Theorem Deserialize_layout {T} (valueDeserializer : deserializer_t T)
    (stream : list string) (h0 : list (BinaryLeaf T)) (out0 : option ptr)
    (st : store T) :
  Deserialize valueDeserializer stream (mkStore h0 out0) = Some st ->
  exists vs,
    read_values valueDeserializer stream = Some vs
    /\ length (cells st) = length h0 + length vs
    /\ (forall i, i < length h0 -> cells st !! i = h0 !! i)
    /\ (vs = [] -> caller_var st = out0)
    /\ (vs <> [] ->
        caller_var st = Some (length h0)
        /\ visit_order (cells st) true (length h0)
           = Some (seq (length h0) (length vs)))
    /\ (forall i v,
          vs !! i = Some v ->
          cells st !! (length h0 + i)
          = Some (mkLeaf v (uint16_t (Z.log2 (Z.of_nat i + 1)))
                    (if decide (i = 0) then TreeDirection.ROOT
                     else if Nat.odd i then TreeDirection.RIGHT
                          else TreeDirection.LEFT)
                    (if decide (2 * i + 1 < length vs)
                     then Some (length h0 + (2 * i + 1)) else None)
                    (if decide (2 * i + 2 < length vs)
                     then Some (length h0 + (2 * i + 2)) else None))).
Proof.
  rewrite Deserialize_built.
  destruct (read_values valueDeserializer stream) as [vs|]; [|discriminate].
  simpl. intros Hst. injection Hst as <-. exists vs.
  split; [reflexivity|]. unfold built. simpl.
  split; [rewrite length_app, length_filled; reflexivity|].
  split; [intros i Hi; apply lookup_app_l; assumption|].
  split; [intros ->; reflexivity|].
  split.
  - intros Hvs. split; [destruct vs; [congruence | reflexivity]|].
    apply visit_order_built. destruct vs; [congruence | simpl; lia].
  - intros i v Hv.
    destruct (lookup_built_cell h0 vs i) as (v' & Hv' & Hcell).
    { eapply lookup_lt_Some; eassumption. }
    rewrite Hv in Hv'. injection Hv' as <-.
    rewrite Hcell, placed_explicit. reflexivity.
Qed.

Lemma Deserialize_layout_witness :
  exists vs,
    read_values stoi ["5"; ""; "3"; "8"]%string = Some vs
    /\ length tree_5_3_8 = 0 + length vs
    /\ (forall i, i < 0 -> tree_5_3_8 !! i = @nil (BinaryLeaf Z) !! i)
    /\ (vs = [] -> Some 0 = None)
    /\ (vs <> [] ->
        Some 0 = Some 0
        /\ visit_order tree_5_3_8 true 0 = Some (seq 0 (length vs)))
    /\ (forall i v,
          vs !! i = Some v ->
          tree_5_3_8 !! (0 + i)
          = Some (mkLeaf v (uint16_t (Z.log2 (Z.of_nat i + 1)))
                    (if decide (i = 0) then TreeDirection.ROOT
                     else if Nat.odd i then TreeDirection.RIGHT
                          else TreeDirection.LEFT)
                    (if decide (2 * i + 1 < length vs)
                     then Some (0 + (2 * i + 1)) else None)
                    (if decide (2 * i + 2 < length vs)
                     then Some (0 + (2 * i + 2)) else None))).
Proof.
  apply (Deserialize_layout stoi ["5"; ""; "3"; "8"]%string [] None
           (mkStore tree_5_3_8 (Some 0))).
  vm_compute. reflexivity.
Defined.

Lemma mapM_shown_back {T} (show : T -> string)
    (valueDeserializer : deserializer_t T) :
  forall (lines : list string) (vs : list T),
    mapM valueDeserializer lines = Some vs ->
    (forall line v,
        In line lines -> valueDeserializer line = Some v -> show v = line) ->
    map show vs = lines.
Proof.
  induction lines as [|line lines IH]; intros vs Hm Hcanon.
  - injection Hm as <-. reflexivity.
  - simpl in Hm.
    destruct (valueDeserializer line) as [v|] eqn:Hv; [|discriminate].
    destruct (mapM valueDeserializer lines) as [ws|]; [|discriminate].
    injection Hm as <-. simpl. f_equal.
    + apply Hcanon; [left; reflexivity | assumption].
    + apply IH; [reflexivity|].
      intros l w Hin. apply Hcanon. right. assumption.
Qed.

(** Writing back what was read: the plain serialization of a tree that
    [Deserialize] has built is the text of the values it read, in the order
    of the lines; when the text of every value is the line it was read
    from, it is the stream without its blank lines. *)
Theorem Serialize_after_Deserialize {T} (show : T -> string)
    (valueDeserializer : deserializer_t T) (stream : list string)
    (h0 : list (BinaryLeaf T)) (out0 : option ptr) (st : store T) :
  Deserialize valueDeserializer stream (mkStore h0 out0) = Some st ->
  length h0 < length (cells st) ->
  exists vs,
    read_values valueDeserializer stream = Some vs
    /\ Serialize show (cells st) (length h0) (-1) false = Some (map show vs)
    /\ ((forall line v,
           In line stream -> valueDeserializer line = Some v ->
           show v = line) ->
        Serialize show (cells st) (length h0) (-1) false
        = Some (List.filter nonblank stream)).
Proof.
  rewrite Deserialize_built. unfold read_values.
  destruct (mapM valueDeserializer (List.filter nonblank stream))
    as [vs|] eqn:Hm; [|discriminate].
  simpl. intros Hst Hlen. injection Hst as <-. exists vs.
  assert (Hvs : vs <> []).
  { intros ->. unfold built in Hlen. simpl in Hlen.
    rewrite app_nil_r in Hlen. lia. }
  split; [reflexivity|]. split; [apply Serialize_built; assumption|].
  intros Hcanon. rewrite Serialize_built by assumption. f_equal.
  apply (mapM_shown_back show valueDeserializer _ _ Hm).
  intros line v Hin. apply filter_In in Hin as [Hin _]. apply Hcanon, Hin.
Qed.

Lemma Serialize_after_Deserialize_witness :
  exists vs,
    read_values stoi ["5"; ""; "3"; "8"]%string = Some vs
    /\ Serialize show_int tree_5_3_8 0 (-1) false = Some (map show_int vs)
    /\ ((forall line v,
           In line ["5"; ""; "3"; "8"]%string -> stoi line = Some v ->
           show_int v = line) ->
        Serialize show_int tree_5_3_8 0 (-1) false
        = Some (List.filter nonblank ["5"; ""; "3"; "8"]%string)).
Proof.
  apply (Serialize_after_Deserialize show_int stoi ["5"; ""; "3"; "8"]%string
           [] None (mkStore tree_5_3_8 (Some 0))).
  - vm_compute. reflexivity.
  - simpl. lia.
Defined.

(** A truncated serialization does not load: [std::stoi] throws on the
    marker line, whatever the other lines are. *)
Theorem truncated_output_does_not_load (show : Z -> string)
    (h : list (BinaryLeaf Z)) (root : ptr) (pretty : bool) (limit : Z)
    (order before after : list ptr) (p : ptr) (l : BinaryLeaf Z)
    (st0 : store Z) :
  visit_order h true root = Some order ->
  (0 <= limit < 65536)%Z ->
  order = before ++ p :: after ->
  Forall (fun q => exists lq, h !! q = Some lq /\ (mDepth lq <= limit)%Z)
    before ->
  h !! p = Some l -> (limit < mDepth l)%Z ->
  exists lines,
    Serialize show h root limit pretty = Some lines
    /\ In truncation_marker lines
    /\ Deserialize stoi lines st0 = None.
Proof.
  intros Hord Hlimit -> Hbefore Hp Hdeep.
  exists (map (line_of show h pretty) before
          ++ [leaf_line show pretty l; truncation_marker]).
  assert (Hin : In truncation_marker
                  (map (line_of show h pretty) before
                   ++ [leaf_line show pretty l; truncation_marker])).
  { apply in_or_app. right. right. left. reflexivity. }
  split; [|split; [exact Hin|]].
  - unfold Serialize. rewrite uint16_t_small by assumption.
    rewrite (Walk_const_run h _ true root _ _ Hord).
    rewrite (run_Serialize_stop show h limit pretty before p l after);
      [reflexivity | apply within_limit_passes; assumption | assumption |].
    unfold too_deep. apply andb_true_iff. split.
    + apply negb_true_iff, Z.eqb_neq. lia.
    + apply Z.ltb_lt. assumption.
  - apply Deserialize_throws_iff. exists truncation_marker.
    split; [exact Hin|]. split; [discriminate | reflexivity].
Qed.

Lemma truncated_output_does_not_load_witness :
  exists lines,
    Serialize show_int tree_1_2_3_4 0 0 false = Some lines
    /\ In truncation_marker lines
    /\ Deserialize stoi lines (mkStore [] None) = None.
Proof.
  apply (truncated_output_does_not_load show_int tree_1_2_3_4 0 false 0%Z
           [0; 1; 2; 3] [0] [2; 3] 1
           (mkLeaf 2%Z 1%Z TreeDirection.RIGHT (Some 3) None)
           (mkStore [] None) eq_refl);
    [lia | reflexivity | | reflexivity | simpl; lia].
  repeat constructor. eexists. split; [reflexivity | simpl; lia].
Defined.

(** ** The generator: shape and values *)

(** A generated tree is a binary heap on the new cells: the [i]-th leaf is
    at depth log2(i+1) exactly, no deeper than log2 of the number of
    leaves; leaf 0 is the root, odd leaves are RIGHT children and even ones
    LEFT children; the children of leaf [i] are the leaves [2i+1] (right)
    and [2i+2] (left) when they exist. *)
Theorem GenerateTree_layout (rand : nat -> Z) (h0 : list (BinaryLeaf Z))
    (maxLeaves : Z) :
  (maxLeaves <= INT_MAX)%Z ->
  exists st n,
    GenerateTree rand h0 maxLeaves = Some (st, n)
    /\ length (cells st) = length h0 + n
    /\ (forall i, i < length h0 -> cells st !! i = h0 !! i)
    /\ (forall i, i < n ->
        exists leaf,
          cells st !! (length h0 + i) = Some leaf
          /\ mDepth leaf = Z.log2 (Z.of_nat i + 1)
          /\ (mDepth leaf <= Z.log2 (Z.of_nat n))%Z
          /\ mDirection leaf
             = (if decide (i = 0) then TreeDirection.ROOT
                else if Nat.odd i then TreeDirection.RIGHT
                     else TreeDirection.LEFT)
          /\ mRight leaf
             = (if decide (2 * i + 1 < n)
                then Some (length h0 + (2 * i + 1)) else None)
          /\ mLeft leaf
             = (if decide (2 * i + 2 < n)
                then Some (length h0 + (2 * i + 2)) else None)).
Proof.
  intros Hmax. set (n := Z.to_nat (Z.max 1 maxLeaves)).
  exists (built h0 None (drawn rand n)), n.
  split; [apply GenerateTree_built|]. unfold built. simpl.
  split; [rewrite length_app, length_filled, length_drawn; reflexivity|].
  split; [intros i Hi; apply lookup_app_l; assumption|].
  intros i Hi.
  destruct (lookup_built_cell h0 (drawn rand n) i) as (v & _ & Hcell).
  { rewrite length_drawn. assumption. }
  rewrite length_drawn in Hcell. rewrite placed_explicit in Hcell.
  eexists. split; [exact Hcell|]. simpl.
  destruct (placed_depth_small i) as [Hd _];
    [unfold INT_MAX in *; unfold n in *; lia|].
  unfold placed_depth in Hd. rewrite Hd.
  repeat split. apply Z.log2_le_mono. lia.
Qed.

Lemma GenerateTree_layout_witness :
  exists st n,
    GenerateTree (fun k => Z.of_nat (1000 + 300 * k)) [] 4 = Some (st, n)
    /\ length (cells st) = 0 + n
    /\ (forall i, i < 0 -> cells st !! i = @nil (BinaryLeaf Z) !! i)
    /\ (forall i, i < n ->
        exists leaf,
          cells st !! (0 + i) = Some leaf
          /\ mDepth leaf = Z.log2 (Z.of_nat i + 1)
          /\ (mDepth leaf <= Z.log2 (Z.of_nat n))%Z
          /\ mDirection leaf
             = (if decide (i = 0) then TreeDirection.ROOT
                else if Nat.odd i then TreeDirection.RIGHT
                     else TreeDirection.LEFT)
          /\ mRight leaf
             = (if decide (2 * i + 1 < n) then Some (0 + (2 * i + 1)) else None)
          /\ mLeft leaf
             = (if decide (2 * i + 2 < n) then Some (0 + (2 * i + 2)) else None)).
Proof.
  apply (GenerateTree_layout (fun k => Z.of_nat (1000 + 300 * k)) [] 4).
  unfold INT_MAX. lia.
Defined.

(** Whatever the random source returns, no generated value reaches 255 in
    absolute value: the values lie in [-254, 254], and in [0, 254] where
    the source is non-negative. *)
Theorem GenerateTree_never_draws_255 (rand : nat -> Z)
    (h0 : list (BinaryLeaf Z)) (maxLeaves : Z) (st : store Z) (calls : nat)
    (i : nat) (leaf : BinaryLeaf Z) :
  GenerateTree rand h0 maxLeaves = Some (st, calls) ->
  cells st !! (length h0 + i) = Some leaf ->
  (-254 <= mValue leaf <= 254)%Z
  /\ ((0 <= rand i)%Z -> (0 <= mValue leaf <= 254)%Z).
Proof.
  rewrite GenerateTree_built. intros Hst Hleaf. injection Hst as <- _.
  unfold built in Hleaf. simpl in Hleaf.
  apply lookup_built_inv in Hleaf as (j & v & Hj & _ & Hv & ->); [|lia].
  replace j with i in * by lia. simpl.
  apply lookup_drawn in Hv as ->.
  pose proof (Z.rem_bound_abs (rand i) 255 ltac:(lia)) as Habs.
  split; [lia|]. intros Hpos.
  pose proof (Z.rem_bound_pos (rand i) 255 Hpos ltac:(lia)). lia.
Qed.

Lemma GenerateTree_never_draws_255_witness :
  (-254 <= 235 <= 254)%Z
  /\ ((0 <= Z.of_nat (1000 + 300 * 0))%Z -> (0 <= 235 <= 254)%Z).
Proof.
  apply (GenerateTree_never_draws_255 (fun k => Z.of_nat (1000 + 300 * k))
           [] 1 (mkStore [BinaryLeaf_new 235%Z] (Some 0)) 1 0
           (BinaryLeaf_new 235%Z)); reflexivity.
Defined.

(** ** [main]: generate, save, reload *)

Lemma child_ptr_shift (m j : nat) : child_ptr 1 m j = S <$> child_ptr 0 m j.
Proof. unfold child_ptr. case_decide; reflexivity. Qed.

(** The file that [main] writes after generating a tree holds the drawn
    values, one per line in the order of the draws, and the next run of
    [main] reads it back into the same tree: the same values, depths and
    directions, with the same links one cell further, because [main]
    allocates a leaf of its own before it calls [Deserialize].  That leaf
    stays in cell 0. *)
Theorem generated_tree_reloads (rand : nat -> Z) (maxLeaves : Z)
    (st : store Z) (calls : nat) :
  GenerateTree rand [] maxLeaves = Some (st, calls) ->
  exists st',
    main_save st = Some (map show_int (drawn rand calls))
    /\ main_load (map show_int (drawn rand calls)) = Some st'
    /\ caller_var st' = Some 1
    /\ cells st' !! 0 = Some (BinaryLeaf_default 0%Z)
    /\ length (cells st') = S (length (cells st))
    /\ (forall i n,
          cells st !! i = Some n ->
          cells st' !! (S i)
          = Some (mkLeaf (mValue n) (mDepth n) (mDirection n)
                    (S <$> mRight n) (S <$> mLeft n))).
Proof.
  rewrite GenerateTree_built. intros Hst. injection Hst as <- <-.
  set (n := Z.to_nat (Z.max 1 maxLeaves)).
  set (vs := drawn rand n).
  assert (Hvs : vs <> []).
  { apply drawn_nonempty. unfold n. lia. }
  assert (Hread : read_values stoi (map show_int vs) = Some vs).
  { apply read_values_shown. apply Forall_forall. intros v Hv.
    apply list_elem_of_lookup in Hv as [i Hi].
    apply lookup_drawn in Hi as ->. apply stoi_show_int_small.
    pose proof (Z.rem_bound_abs (rand i) 255 ltac:(lia)). lia. }
  exists (built [BinaryLeaf_default 0%Z] (Some 0) vs).
  split.
  { unfold main_save.
    replace (caller_var (built [] None vs)) with (Some 0)
      by (unfold built; destruct vs; [congruence | reflexivity]).
    apply (Serialize_built show_int [] None vs Hvs). }
  split.
  { unfold main_load. rewrite Deserialize_built, Hread. reflexivity. }
  split; [unfold built; destruct vs; [congruence | reflexivity]|].
  split; [reflexivity|].
  split.
  { unfold built. simpl. rewrite !length_filled. reflexivity. }
  intros i leaf Hleaf. unfold built in *. simpl in *.
  rewrite lookup_filled in *.
  destruct (vs !! i) as [v|]; [|discriminate].
  simpl in *. injection Hleaf as <-. unfold placed. simpl.
  rewrite !child_ptr_shift. reflexivity.
Qed.

Lemma generated_tree_reloads_witness :
  exists st',
    main_save (mkStore [BinaryLeaf_new 235%Z] (Some 0))
    = Some (map show_int (drawn (fun k => Z.of_nat (1000 + 300 * k)) 1))
    /\ main_load (map show_int (drawn (fun k => Z.of_nat (1000 + 300 * k)) 1))
       = Some st'
    /\ caller_var st' = Some 1
    /\ cells st' !! 0 = Some (BinaryLeaf_default 0%Z)
    /\ length (cells st') = S (length [BinaryLeaf_new 235%Z])
    /\ (forall i n,
          [BinaryLeaf_new 235%Z] !! i = Some n ->
          cells st' !! (S i)
          = Some (mkLeaf (mValue n) (mDepth n) (mDirection n)
                    (S <$> mRight n) (S <$> mLeft n))).
Proof.
  apply (generated_tree_reloads (fun k => Z.of_nat (1000 + 300 * k)) 1
           (mkStore [BinaryLeaf_new 235%Z] (Some 0)) 1).
  reflexivity.
Defined.

(** Loading a file in [main].  With no value to read the tree is the leaf
    that [main] allocated itself, holding 0.  Otherwise the tree starts in
    cell 1, and the leaf that [main] allocated stays in cell 0, unchanged
    and outside the tree: the walk from the root does not visit it. *)
Theorem main_load_cases (stream : list string) (st : store Z) :
  main_load stream = Some st ->
  (read_values stoi stream = Some []
   /\ st = mkStore [BinaryLeaf_default 0%Z] (Some 0))
  \/ (exists vs,
        read_values stoi stream = Some vs /\ vs <> []
        /\ caller_var st = Some 1
        /\ cells st !! 0 = Some (BinaryLeaf_default 0%Z)
        /\ visit_order (cells st) true 1 = Some (seq 1 (length vs))
        /\ 0 ∉ seq 1 (length vs)).
Proof.
  unfold main_load. rewrite Deserialize_built.
  destruct (read_values stoi stream) as [[|v vs]|]; [| |discriminate];
    simpl; intros Hst; injection Hst as <-.
  - left. auto.
  - right. exists (v :: vs). split; [reflexivity|]. split; [discriminate|].
    split; [reflexivity|]. split; [reflexivity|]. split.
    + apply (visit_order_built [BinaryLeaf_default 0%Z] (v :: vs)).
      simpl. lia.
    + rewrite elem_of_seq. lia.
Qed.

Lemma main_load_cases_witness :
  (read_values stoi ["5"; "3"; "8"]%string = Some []
   /\ mkStore (BinaryLeaf_default 0%Z :: filled 1 [5; 3; 8]%Z) (Some 1)
      = mkStore [BinaryLeaf_default 0%Z] (Some 0))
  \/ (exists vs,
        read_values stoi ["5"; "3"; "8"]%string = Some vs /\ vs <> []
        /\ Some 1 = Some 1
        /\ (BinaryLeaf_default 0%Z :: filled 1 [5; 3; 8]%Z) !! 0
           = Some (BinaryLeaf_default 0%Z)
        /\ visit_order (BinaryLeaf_default 0%Z :: filled 1 [5; 3; 8]%Z) true 1
           = Some (seq 1 (length vs))
        /\ 0 ∉ seq 1 (length vs)).
Proof.
  apply (main_load_cases ["5"; "3"; "8"]%string
           (mkStore (BinaryLeaf_default 0%Z :: filled 1 [5; 3; 8]%Z) (Some 1))).
  vm_compute. reflexivity.
Defined.

(** ** The min/max search *)

Section Best.
Variable better : Q -> Q -> bool.
Hypothesis better_irrefl : forall a, better a a = false.
Hypothesis better_trans_not :
  forall a b c, better a b = true -> better c b = false -> better a c = true.
Hypothesis not_better_trans :
  forall a b c, better a b = false -> better b c = false -> better a c = false.
Hypothesis better_asym : forall a b, better a b = true -> better b a = false.

Lemma best_spec (prs : list (ptr * Q)) :
  forall acc,
    better (fst acc) (fst (fold_left (best_step better) prs acc)) = false
    /\ (forall pr, In pr prs ->
        better (snd pr) (fst (fold_left (best_step better) prs acc)) = false)
    /\ ((fold_left (best_step better) prs acc = acc
         /\ forall pr, In pr prs -> better (snd pr) (fst acc) = false)
        \/ exists before p r after,
             prs = before ++ (p, r) :: after
             /\ fold_left (best_step better) prs acc = (r, Some p)
             /\ better r (fst acc) = true
             /\ forall pr, In pr before -> better r (snd pr) = true).
Proof using All.
  induction prs as [|[p0 r0] rest IH]; intros acc.
  - simpl. split; [apply better_irrefl|]. split; [intros pr []|].
    left. split; [reflexivity | intros pr []].
  - simpl fold_left. unfold best_step at 2 4 6 8. simpl fst. simpl snd.
    destruct (better r0 (fst acc)) eqn:Hb.
    + destruct (IH (r0, Some p0)) as (Hseed & Hall & Hcase). simpl in Hseed.
      split; [eapply not_better_trans; [apply better_asym; eassumption|exact Hseed]|].
      split.
      { intros pr [<-|Hin]; [exact Hseed | apply Hall, Hin]. }
      right. destruct Hcase as [[HF Hnone]|(before & p & r & after & -> & HF & Hr & Hbefore)].
      * exists [], p0, r0, rest. repeat split; auto; try (intros pr []).
      * exists ((p0, r0) :: before), p, r, after. simpl in Hr.
        repeat split; auto.
        -- eapply better_trans_not; [exact Hr|]. apply better_asym, Hb.
        -- intros pr [<-|Hin]; [exact Hr | apply Hbefore, Hin].
    + destruct (IH acc) as (Hseed & Hall & Hcase).
      split; [exact Hseed|]. split.
      { intros pr [<-|Hin]; [|apply Hall, Hin].
        eapply not_better_trans; eassumption. }
      destruct Hcase as [[HF Hnone]|(before & p & r & after & -> & HF & Hr & Hbefore)].
      * left. split; [exact HF|]. intros pr [<-|Hin]; [exact Hb | apply Hnone, Hin].
      * right. exists ((p0, r0) :: before), p, r, after.
        repeat split; auto.
        intros pr [<-|Hin]; [|apply Hbefore, Hin].
        eapply better_trans_not; eassumption.
Qed.
End Best.

Lemma Qlt_b_true (x y : Q) : Qlt_b x y = true <-> (x < y)%Q.
Proof.
  unfold Qlt_b. rewrite Qlt_alt. destruct (x ?= y)%Q; split; congruence.
Qed.

Lemma Qlt_b_false (x y : Q) : Qlt_b x y = false <-> (y <= x)%Q.
Proof.
  split.
  - intros Hb. apply Qnot_lt_le. intros Hlt.
    apply Qlt_b_true in Hlt. congruence.
  - intros Hle. destruct (Qlt_b x y) eqn:Hb; [|reflexivity].
    apply Qlt_b_true in Hb. exfalso. eapply Qle_not_lt; eassumption.
Qed.

Lemma search_over_min (prs : list (ptr * Q)) :
  forall acc,
    (outputMin (search_over prs acc), outputMinHolder (search_over prs acc))
    = fold_left (best_step Qlt_b) prs (outputMin acc, outputMinHolder acc).
Proof.
  unfold search_over. induction prs as [|[p r] rest IH]; intros acc;
    [reflexivity|].
  simpl fold_left. rewrite IH. f_equal.
  unfold minmax_step, best_step. simpl.
  destruct (Qlt_b r (outputMin acc)); simpl;
    destruct (Qlt_b _ r); reflexivity.
Qed.

Lemma search_over_max (prs : list (ptr * Q)) :
  forall acc,
    (outputMax (search_over prs acc), outputMaxHolder (search_over prs acc))
    = fold_left (best_step (fun r m => Qlt_b m r)) prs
        (outputMax acc, outputMaxHolder acc).
Proof.
  unfold search_over. induction prs as [|[p r] rest IH]; intros acc;
    [reflexivity|].
  simpl fold_left. rewrite IH. f_equal.
  unfold minmax_step, best_step. simpl.
  destruct (Qlt_b r (outputMin acc)); simpl;
    destruct (Qlt_b (outputMax acc) r); reflexivity.
Qed.

Lemma run_minmax_walker (h : list (BinaryLeaf Z)) (order : list ptr) :
  Forall (fun p => is_Some (GetWeightSumChildrenRatio h p)) order ->
  forall acc,
    run_walker (minmax_walker h) order acc
    = Some (search_over (map (fun p => (p, ratio_of h p)) order) acc).
Proof.
  induction 1 as [|p order [x Hx] _ IH]; intros acc; [reflexivity|].
  assert (Hstep : minmax_walker h p acc
                  = Some (false, minmax_step acc p (ratio_of h p))).
  { unfold minmax_walker, ratio_of. rewrite Hx. reflexivity. }
  simpl run_walker. rewrite Hstep, IH. reflexivity.
Qed.

Lemma subtree_at {T} (h : list (BinaryLeaf T)) (t : tree) :
  repr h t -> NoDup (nodes t) ->
  forall p, p ∈ nodes t ->
  exists r l, repr h (Node p r l) /\ NoDup (nodes (Node p r l)).
Proof.
  induction t as [|q r IHr l IHl]; intros Hrepr Hnd p Hp; [inversion Hp|].
  simpl in Hp. apply elem_of_cons in Hp as [->|Hp]; [eauto|].
  simpl in Hnd. apply NoDup_cons in Hnd as [_ Hnd].
  apply NoDup_app in Hnd as (Hndr & _ & Hndl).
  destruct Hrepr as (n & _ & _ & _ & Hr & Hl).
  apply elem_of_app in Hp as [Hp|Hp]; [apply IHr | apply IHl]; assumption.
Qed.

Lemma ratio_defined (h : list (BinaryLeaf Z)) (p : ptr) (r l : tree) :
  repr h (Node p r l) -> NoDup (nodes (Node p r l)) ->
  GetWeightSumChildrenRatio h p = Some (ratio_of h p).
Proof.
  intros Hrepr Hnd.
  destruct (visit_order_descendants h p r l Hrepr Hnd) as (order & Hord & _).
  assert (Hsome : is_Some (GetWeightSumChildrenRatio h p)).
  { unfold GetWeightSumChildrenRatio.
    destruct Hrepr as (n & Hn & _). rewrite Hn.
    rewrite (Walk_const_run h (ratio_walker h) false p order _ Hord).
    change (0%Z, weight n) with (int 0, int (mDepth n * mValue n)).
    rewrite run_ratio_walker by (eapply visit_order_cells; eassumption).
    eauto. }
  destruct Hsome as [x Hx]. unfold ratio_of. rewrite Hx. reflexivity.
Qed.

Lemma visit_order_level_order {T} (h : list (BinaryLeaf T)) (root : ptr)
    (r l : tree) :
  repr h (Node root r l) -> NoDup (nodes (Node root r l)) ->
  visit_order h true root = Some (level_order (Node root r l))
  /\ level_order (Node root r l) ≡ₚ nodes (Node root r l).
Proof.
  intros Hrepr Hnd.
  destruct (visit_order_tree h root r l Hrepr Hnd) as (order & Hord & Hperm).
  assert (Hlevels : visit_order h true root
                    = Some (level_order (Node root r l))).
  { unfold visit_order, Walk_const, Walk.
    change [root] with (omap root_of [Node root r l]).
    rewrite (Walk_loop_levels h (height (Node root r l)) [Node root r l]
               (length h) []).
    - f_equal. unfold level_order. rewrite app_nil_l. apply flat_map_ext.
      intros d. apply bind_singleton.
    - repeat constructor. exact Hrepr.
    - repeat constructor.
    - rewrite bind_singleton.
      apply NoDup_cells_length; [assumption | apply repr_nodes_cells; assumption]. }
  split; [exact Hlevels|].
  rewrite Hlevels in Hord. injection Hord as <-. exact Hperm.
Qed.

(** The search over a tree, as a fold over its level order. *)
Lemma GetMinMax_tree (h : list (BinaryLeaf Z)) (root : ptr) (r l : tree)
    (acc0 : minmax) :
  repr h (Node root r l) -> NoDup (nodes (Node root r l)) ->
  GetMinMaxWeightSumChildrenRatio h root acc0
  = Some (search_over
            ((fun p => (p, ratio_of h p)) <$> level_order (Node root r l)) acc0)
  /\ (forall p, p ∈ nodes (Node root r l) ->
      GetWeightSumChildrenRatio h p = Some (ratio_of h p))
  /\ (forall p, p ∈ nodes (Node root r l) <-> p ∈ level_order (Node root r l)).
Proof.
  intros Hrepr Hnd.
  destruct (visit_order_level_order h root r l Hrepr Hnd) as [Hord Hperm].
  assert (Hratio : forall p, p ∈ nodes (Node root r l) ->
            GetWeightSumChildrenRatio h p = Some (ratio_of h p)).
  { intros p Hp.
    destruct (subtree_at h _ Hrepr Hnd p Hp) as (r' & l' & Hr' & Hnd').
    eapply ratio_defined; eassumption. }
  assert (Hiff : forall p, p ∈ nodes (Node root r l)
                           <-> p ∈ level_order (Node root r l)).
  { intros p. rewrite Hperm. reflexivity. }
  split; [|split; assumption].
  unfold GetMinMaxWeightSumChildrenRatio.
  rewrite (Walk_const_run h (minmax_walker h) true root _ _ Hord).
  apply run_minmax_walker. apply Forall_forall. intros p Hp.
  rewrite (Hratio p) by (apply Hiff; assumption). eauto.
Qed.

(** The minimum side of a search over [order]. *)
Lemma search_min_side (h : list (BinaryLeaf Z)) (order : list ptr)
    (acc0 : minmax) :
  let acc := search_over ((fun p => (p, ratio_of h p)) <$> order) acc0 in
  (outputMin acc <= outputMin acc0)%Q
  /\ (forall p, p ∈ order -> (outputMin acc <= ratio_of h p)%Q)
  /\ ((outputMin acc = outputMin acc0
       /\ outputMinHolder acc = outputMinHolder acc0
       /\ forall p, p ∈ order -> (outputMin acc0 <= ratio_of h p)%Q)
      \/ exists before p after,
           order = before ++ p :: after
           /\ outputMinHolder acc = Some p
           /\ outputMin acc = ratio_of h p
           /\ (ratio_of h p < outputMin acc0)%Q
           /\ forall q, q ∈ before -> (ratio_of h p < ratio_of h q)%Q).
Proof.
  intros acc.
  pose proof (search_over_min ((fun p => (p, ratio_of h p)) <$> order) acc0)
    as Hproj. fold acc in Hproj.
  destruct (best_spec Qlt_b) with
    (prs := (fun p => (p, ratio_of h p)) <$> order)
    (acc := (outputMin acc0, outputMinHolder acc0))
    as (Hseed & Hall & Hcase).
  - intros a. apply Qlt_b_false, Qle_refl.
  - intros a b c Hab Hcb. apply Qlt_b_true. apply Qlt_b_true in Hab.
    apply Qlt_b_false in Hcb. eapply Qlt_le_trans; eassumption.
  - intros a b c Hab Hbc. apply Qlt_b_false. apply Qlt_b_false in Hab, Hbc.
    eapply Qle_trans; eassumption.
  - intros a b Hab. apply Qlt_b_false, Qlt_le_weak, Qlt_b_true, Hab.
  - rewrite <- Hproj in Hseed, Hall, Hcase. simpl in Hseed, Hall, Hcase.
    split; [apply Qlt_b_false, Hseed|]. split.
    { intros p Hp. apply Qlt_b_false.
      apply (Hall (p, ratio_of h p)).
      apply list_elem_of_In, list_elem_of_fmap. eauto. }
    destruct Hcase as [[HF Hnone]|(before & p & x & after & Hsplit & HF & Hx & Hbefore)].
    + left. injection HF as Hm Hh. repeat split; try assumption.
      intros p Hp. apply Qlt_b_false.
      apply (Hnone (p, ratio_of h p)).
      apply list_elem_of_In, list_elem_of_fmap. eauto.
    + right. apply fmap_app_inv in Hsplit as (before' & rest & -> & Hrest & ->).
      symmetry in Hrest.
      apply fmap_cons_inv in Hrest as (p' & after' & Hp' & -> & ->).
      injection Hp' as -> ->. injection HF as Hm Hh.
      exists before', p', after'. repeat split; try assumption.
      * apply Qlt_b_true, Hx.
      * intros q Hq. apply Qlt_b_true.
        apply (Hbefore (q, ratio_of h q)).
        apply list_elem_of_In, list_elem_of_fmap. eauto.
Qed.

(** The maximum side of a search over [order]. *)
Lemma search_max_side (h : list (BinaryLeaf Z)) (order : list ptr)
    (acc0 : minmax) :
  let acc := search_over ((fun p => (p, ratio_of h p)) <$> order) acc0 in
  (outputMax acc0 <= outputMax acc)%Q
  /\ (forall p, p ∈ order -> (ratio_of h p <= outputMax acc)%Q)
  /\ ((outputMax acc = outputMax acc0
       /\ outputMaxHolder acc = outputMaxHolder acc0
       /\ forall p, p ∈ order -> (ratio_of h p <= outputMax acc0)%Q)
      \/ exists before p after,
           order = before ++ p :: after
           /\ outputMaxHolder acc = Some p
           /\ outputMax acc = ratio_of h p
           /\ (outputMax acc0 < ratio_of h p)%Q
           /\ forall q, q ∈ before -> (ratio_of h q < ratio_of h p)%Q).
Proof.
  intros acc.
  pose proof (search_over_max ((fun p => (p, ratio_of h p)) <$> order) acc0)
    as Hproj. fold acc in Hproj.
  destruct (best_spec (fun r m => Qlt_b m r)) with
    (prs := (fun p => (p, ratio_of h p)) <$> order)
    (acc := (outputMax acc0, outputMaxHolder acc0))
    as (Hseed & Hall & Hcase).
  - intros a. apply Qlt_b_false, Qle_refl.
  - intros a b c Hab Hcb. apply Qlt_b_true. apply Qlt_b_true in Hab.
    apply Qlt_b_false in Hcb. eapply Qle_lt_trans; eassumption.
  - intros a b c Hab Hbc. apply Qlt_b_false. apply Qlt_b_false in Hab, Hbc.
    eapply Qle_trans; eassumption.
  - intros a b Hab. apply Qlt_b_false, Qlt_le_weak, Qlt_b_true, Hab.
  - rewrite <- Hproj in Hseed, Hall, Hcase. simpl in Hseed, Hall, Hcase.
    split; [apply Qlt_b_false, Hseed|]. split.
    { intros p Hp. apply Qlt_b_false.
      apply (Hall (p, ratio_of h p)).
      apply list_elem_of_In, list_elem_of_fmap. eauto. }
    destruct Hcase as [[HF Hnone]|(before & p & x & after & Hsplit & HF & Hx & Hbefore)].
    + left. injection HF as Hm Hh. repeat split; try assumption.
      intros p Hp. apply Qlt_b_false.
      apply (Hnone (p, ratio_of h p)).
      apply list_elem_of_In, list_elem_of_fmap. eauto.
    + right. apply fmap_app_inv in Hsplit as (before' & rest & -> & Hrest & ->).
      symmetry in Hrest.
      apply fmap_cons_inv in Hrest as (p' & after' & Hp' & -> & ->).
      injection Hp' as -> ->. injection HF as Hm Hh.
      exists before', p', after'. repeat split; try assumption.
      * apply Qlt_b_true, Hx.
      * intros q Hq. apply Qlt_b_true.
        apply (Hbefore (q, ratio_of h q)).
        apply list_elem_of_In, list_elem_of_fmap. eauto.
Qed.



(** The search as [main] runs it over a tree of the arena.  It returns
    with a minimum that is at most the maximum.  The holder of the maximum
    is left unset exactly when no node has a ratio above 0, and the holder
    of the minimum exactly when no node has a ratio below 99999999; a
    holder that is set is a node of the tree whose ratio is the value
    returned. *)
Theorem main_search_holders (h : list (BinaryLeaf Z)) (root : ptr)
    (r l : tree) :
  repr h (Node root r l) -> NoDup (nodes (Node root r l)) ->
  exists acc,
    main_search h root = Some acc
    /\ (outputMin acc <= outputMax acc)%Q
    /\ (outputMaxHolder acc = None
        <-> forall p, p ∈ nodes (Node root r l) -> (ratio_of h p <= 0)%Q)
    /\ (outputMinHolder acc = None
        <-> forall p, p ∈ nodes (Node root r l) ->
                      (99999999 # 1 <= ratio_of h p)%Q)
    /\ (forall p, outputMaxHolder acc = Some p ->
        p ∈ nodes (Node root r l) /\ outputMax acc = ratio_of h p)
    /\ (forall p, outputMinHolder acc = Some p ->
        p ∈ nodes (Node root r l) /\ outputMin acc = ratio_of h p).
Proof.
  intros Hrepr Hnd. unfold main_search. fold main_seed.
  destruct (GetMinMax_tree h root r l main_seed Hrepr Hnd)
    as (Hrun & Hratio & Hiff).
  destruct (search_min_side h (level_order (Node root r l)) main_seed)
    as (Hmin0 & Hmin & Hminc).
  destruct (search_max_side h (level_order (Node root r l)) main_seed)
    as (Hmax0 & Hmax & Hmaxc).
  eexists. split; [exact Hrun|].
  set (acc := search_over _ main_seed) in *.
  assert (Hroot : root ∈ level_order (Node root r l)).
  { apply Hiff. simpl. apply list_elem_of_here. }
  split; [eapply Qle_trans; [apply Hmin | apply Hmax]; exact Hroot|].
  split; [|split; [|split]].
  - split.
    + intros Hnone p Hp.
      destruct Hmaxc as [(_ & _ & H3)|(before & q & after & _ & Hq & _)];
        [apply H3, Hiff, Hp | congruence].
    + intros Hall.
      destruct Hmaxc as [(_ & H2 & _)|(before & q & after & Hsplit & _ & _ & Hlt & _)];
        [exact H2|].
      exfalso. eapply Qlt_not_le; [exact Hlt|]. apply Hall, Hiff.
      rewrite Hsplit. apply elem_of_app. right. apply list_elem_of_here.
  - split.
    + intros Hnone p Hp.
      destruct Hminc as [(_ & _ & H3)|(before & q & after & _ & Hq & _)];
        [apply H3, Hiff, Hp | congruence].
    + intros Hall.
      destruct Hminc as [(_ & H2 & _)|(before & q & after & Hsplit & _ & _ & Hlt & _)];
        [exact H2|].
      exfalso. eapply Qlt_not_le; [exact Hlt|]. apply Hall, Hiff.
      rewrite Hsplit. apply elem_of_app. right. apply list_elem_of_here.
  - intros p Hp.
    destruct Hmaxc as [(_ & H2 & _)|(before & q & after & Hsplit & Hq & Hval & _)].
    + rewrite H2 in Hp. discriminate.
    + rewrite Hq in Hp. injection Hp as <-. split; [|exact Hval].
      apply Hiff. rewrite Hsplit. apply elem_of_app. right.
      apply list_elem_of_here.
  - intros p Hp.
    destruct Hminc as [(_ & H2 & _)|(before & q & after & Hsplit & Hq & Hval & _)].
    + rewrite H2 in Hp. discriminate.
    + rewrite Hq in Hp. injection Hp as <-. split; [|exact Hval].
      apply Hiff. rewrite Hsplit. apply elem_of_app. right.
      apply list_elem_of_here.
Qed.

Lemma main_search_holders_witness :
  exists acc,
    main_search tree_5_3_8 0 = Some acc
    /\ (outputMin acc <= outputMax acc)%Q.
Proof.
  destruct (main_search_holders tree_5_3_8 0 (Node 1 Nil Nil) (Node 2 Nil Nil))
    as (acc & Hrun & Hle & _).
  - simpl. eexists. repeat split; eexists; repeat split.
  - apply (bool_decide_unpack _). reflexivity.
  - exists acc. split; assumption.
Defined.

(** ** The size in bytes *)

Lemma size_t_add (size_t_bits a b : Z) :
  size_t size_t_bits (size_t size_t_bits a + b) = size_t size_t_bits (a + b).
Proof. unfold size_t. apply Zplus_mod_idemp_l. Qed.

Lemma run_byte_size (sizeof_leaf size_t_bits : Z) (order : list ptr) :
  forall result : Z,
    run_walker
      (fun (leaf : ptr) (result : Z) =>
         Some (false, size_t size_t_bits (result + sizeof_leaf)))
      order (size_t size_t_bits result)
    = Some (size_t size_t_bits
              (result + Z.of_nat (length order) * sizeof_leaf)).
Proof.
  induction order as [|p order IH]; intros result.
  - simpl. rewrite Z.add_0_r. reflexivity.
  - simpl run_walker. rewrite size_t_add, IH.
    f_equal. f_equal. simpl length. lia.
Qed.

(** [GetByteSize] of the root of a tree of the arena is the number of nodes
    of the tree times the size of a leaf, in the arithmetic of [size_t]. *)
Theorem GetByteSize_spec {T} (sizeof_leaf size_t_bits : Z)
    (h : list (BinaryLeaf T)) (root : ptr) (r l : tree) :
  repr h (Node root r l) -> NoDup (nodes (Node root r l)) ->
  GetByteSize sizeof_leaf size_t_bits h root
  = Some (size_t size_t_bits
            (Z.of_nat (length (nodes (Node root r l))) * sizeof_leaf)).
Proof.
  intros Hrepr Hnd.
  destruct (visit_order_tree h root r l Hrepr Hnd) as (order & Hord & Hperm).
  unfold GetByteSize.
  rewrite (Walk_const_run h _ true root order _ Hord).
  change 0%Z with (size_t size_t_bits 0) at 1.
  rewrite run_byte_size. rewrite (Permutation_length Hperm).
  reflexivity.
Qed.

Lemma GetByteSize_spec_witness :
  GetByteSize 32 64 tree_5_3_8 0 = Some 96%Z.
Proof.
  refine (GetByteSize_spec 32 64 tree_5_3_8 0 (Node 1 Nil Nil) (Node 2 Nil Nil)
            _ _).
  - simpl. eexists. repeat split; eexists; repeat split.
  - apply (bool_decide_unpack _). reflexivity.
Defined.

(** ** Destruction where it works *)

(** Deleting a node whose children, if any, have no children themselves
    deletes each child once, the left one first, and then the node: on
    trees of at most two levels nothing is deleted twice. *)
Theorem delete_two_levels {T} (m : memory T) (root : ptr)
    (t : BinaryLeaf T) (depth fuel : nat) :
  arena m !! root = Some t ->
  (forall c, mLeft t = Some c \/ mRight t = Some c ->
             exists nc, arena m !! c = Some nc
                        /\ mRight nc = None /\ mLeft nc = None) ->
  delete (2 + depth) (2 + fuel) root m
  = Some (mkMemory (arena m)
            (deleted m ++ option_list (mLeft t) ++ option_list (mRight t)
               ++ [root])).
Proof.
  intros Ht Hleaves. unfold delete. simpl destructor. unfold Walk.
  rewrite Ht.
  destruct (mLeft t) as [cl|] eqn:Hl, (mRight t) as [cr|] eqn:Hr; simpl.
  - destruct (Hleaves cl) as (ncl & Hcl & Hclr & Hcll); [auto|].
    destruct (Hleaves cr) as (ncr & Hcr & Hcrr & Hcrl); [auto|].
    rewrite Hcl, Hclr, Hcll. simpl. rewrite Hcr, Hcrr, Hcrl. simpl.
    destruct fuel; simpl; rewrite <- !app_assoc; reflexivity.
  - destruct (Hleaves cl) as (ncl & Hcl & Hclr & Hcll); [auto|].
    rewrite Hcl, Hclr, Hcll. simpl. rewrite <- !app_assoc. reflexivity.
  - destruct (Hleaves cr) as (ncr & Hcr & Hcrr & Hcrl); [auto|].
    rewrite Hcr, Hcrr, Hcrl. simpl. rewrite <- !app_assoc. reflexivity.
  - reflexivity.
Qed.

Lemma delete_two_levels_witness :
  delete 2 2 0 (mkMemory tree_5_3_8 [])
  = Some (mkMemory tree_5_3_8 [2; 1; 0]).
Proof.
  refine (delete_two_levels (mkMemory tree_5_3_8 []) 0
            (mkLeaf 5%Z 0%Z TreeDirection.ROOT (Some 1) (Some 2)) 0 0
            eq_refl _).
  intros c [Hc|Hc]; injection Hc as <-; eexists; repeat split.
Defined.
